(** * nir_lower_locals_to_regs: lowering of local variable dereferences
      to virtual registers.

    Shallow embedding of [src/compiler/nir/nir_lower_locals_to_regs.c].
    Unsigned 32-bit C integers are values of [Z] reduced modulo [2^32];
    pointers to IR objects are modelled by the objects themselves, with an
    explicit identity field where the code compares addresses. *)

From Stdlib Require Import ZArith List Bool Lia PeanoNat.
Import ListNotations.
Local Open Scope Z_scope.
Set Warnings "-register-all".

(** ** Machine integers *)

Definition UINT32_MODULUS : Z := 2 ^ 32.

(** Truncation of a mathematical integer to a C [unsigned]/[uint32_t]. *)
Definition u32 (x : Z) : Z := x mod UINT32_MODULUS.

(** ** Failure modes

    [unreachable(...)] and [assert(...)] are fatal; each site of the source
    has a tag of its own.  The trailing [unreachable("We should have hit a
    variable dereference")] of [hash_deref] and [derefs_equal] has none: in
    this embedding an array or struct node always holds a parent, so the
    loops leave through a [return] or through the [default] case. *)

Inductive fatal : Type :=
| Unreachable_invalid_deref_type      (* "Invalid deref type" *)
| Unreachable_copy                    (* "There should be no copies whatsoever at this point" *)
| Assert_constant_initializer         (* get_reg_for_deref, first assert *)
| Assert_vector_or_scalar             (* get_reg_for_deref, second assert *)
| Assert_base_offset_zero             (* get_deref_reg_src, inside the walk *)
| Assert_indirect_is_ssa              (* get_deref_reg_src, inside the walk *)
| Null_dereference.                   (* reading a field through a NULL pointer *)

Inductive result (A : Type) : Type :=
| Ok (a : A)
| Fatal (e : fatal).
Arguments Ok {A} a.
Arguments Fatal {A} e.

(** ** Types of the host IR *)

(** Modelled from the spec: the GLSL type system is an external collaborator
    (section 6, type queries: vector/scalar element count, bit width, array
    length).  Scalars are one-element vectors. *)
Inductive glsl_type : Type :=
| glsl_vector (bit_size vector_elements : Z)
| glsl_matrix (bit_size vector_elements matrix_columns : Z)
| glsl_array (element : glsl_type) (length : Z)
| glsl_struct (fields : list glsl_type).

(** Modelled from the spec: array length query of the type system. *)
Definition glsl_get_length (t : glsl_type) : Z :=
  match t with
  | glsl_vector _ _ => 0
  | glsl_matrix _ _ cols => cols
  | glsl_array _ len => len
  | glsl_struct fs => Z.of_nat (List.length fs)
  end.

(** Modelled from the spec: vector/scalar test of the type system. *)
Definition glsl_type_is_vector_or_scalar (t : glsl_type) : bool :=
  match t with
  | glsl_vector _ _ => true
  | _ => false
  end.

(** Modelled from the spec: vector/scalar element count query. *)
Definition glsl_get_vector_elements (t : glsl_type) : Z :=
  match t with
  | glsl_vector _ n => n
  | glsl_matrix _ n _ => n
  | _ => 0
  end.

(** Modelled from the spec: bit width query. *)
Definition glsl_get_bit_size (t : glsl_type) : Z :=
  match t with
  | glsl_vector b _ => b
  | glsl_matrix b _ _ => b
  | _ => 0
  end.

(** Element type reached by an array-index link (arrays and matrices). *)
Definition glsl_get_array_element (t : glsl_type) : option glsl_type :=
  match t with
  | glsl_array e _ => Some e
  | glsl_matrix b n _ => Some (glsl_vector b n)
  | _ => None
  end.

(** Type of field [i] reached by a struct-field link. *)
Definition glsl_get_struct_field (t : glsl_type) (i : Z) : option glsl_type :=
  match t with
  | glsl_struct fs => if i <? 0 then None else nth_error fs (Z.to_nat i)
  | _ => None
  end.

(** ** Variables, SSA values and sources *)

Inductive nir_variable_mode : Type :=
| nir_var_local
| nir_var_global
| nir_var_shader_in
| nir_var_shader_out
| nir_var_uniform
| nir_var_shared.

Definition nir_variable_mode_eqb (a b : nir_variable_mode) : bool :=
  match a, b with
  | nir_var_local, nir_var_local
  | nir_var_global, nir_var_global
  | nir_var_shader_in, nir_var_shader_in
  | nir_var_shader_out, nir_var_shader_out
  | nir_var_uniform, nir_var_uniform
  | nir_var_shared, nir_var_shared => true
  | _, _ => false
  end.

(** A [nir_variable].  [var_id] stands for the address of the object: the
    code compares variables with [a->var == b->var]. *)
Record nir_variable : Type := mk_variable {
  var_id : nat;
  var_type : glsl_type;
  var_mode : nir_variable_mode;
  constant_initializer : option (list Z)
}.

(** An SSA definition, identified by the instruction that defines it. *)
Inductive nir_ssa_def : Type :=
| ssa_load_const (value : Z)            (* nir_load_const_instr, u32[0] *)
| ssa_value (index : nat)               (* defined elsewhere in the shader *)
| ssa_mov (reg_index : nat)             (* mov of a register source *)
| ssa_iadd (a b : nir_ssa_def)
| ssa_imul (a b : nir_ssa_def).

(** A [nir_src] used as an index: an SSA value or a register read. *)
Inductive nir_src : Type :=
| src_ssa (ssa : nir_ssa_def)
| src_reg (reg_index : nat).

Definition is_ssa (s : nir_src) : bool :=
  match s with src_ssa _ => true | src_reg _ => false end.

(** [nir_src_as_const_value]: the constant, when the source is an SSA value
    defined by a load_const instruction. *)
Definition nir_src_as_const_value (s : nir_src) : option Z :=
  match s with
  | src_ssa (ssa_load_const v) => Some v
  | _ => None
  end.

(** ** Dereference chains *)

Inductive nir_deref_type : Type :=
| nir_deref_type_var
| nir_deref_type_array
| nir_deref_type_array_wildcard
| nir_deref_type_struct
| nir_deref_type_cast.

Definition nir_deref_type_eqb (a b : nir_deref_type) : bool :=
  match a, b with
  | nir_deref_type_var, nir_deref_type_var
  | nir_deref_type_array, nir_deref_type_array
  | nir_deref_type_array_wildcard, nir_deref_type_array_wildcard
  | nir_deref_type_struct, nir_deref_type_struct
  | nir_deref_type_cast, nir_deref_type_cast => true
  | _, _ => false
  end.

(** A [nir_deref_instr], leaf first: every node but a variable holds its
    parent.  [mode] and [type] are the fields common to all nodes.  The
    parent of a cast need not be a dereference: [deref_cast_root] is a
    cast for which [nir_deref_instr_parent] yields NULL. *)
Inductive nir_deref_instr : Type :=
| deref_var (mode : nir_variable_mode) (type : glsl_type) (var : nir_variable)
| deref_array (mode : nir_variable_mode) (type : glsl_type)
              (parent : nir_deref_instr) (arr_index : nir_src)
| deref_array_wildcard (mode : nir_variable_mode) (type : glsl_type)
                       (parent : nir_deref_instr)
| deref_struct (mode : nir_variable_mode) (type : glsl_type)
               (parent : nir_deref_instr) (strct_index : Z)
| deref_cast (mode : nir_variable_mode) (type : glsl_type)
             (parent : nir_deref_instr)
| deref_cast_root (mode : nir_variable_mode) (type : glsl_type).

Definition deref_type_of (d : nir_deref_instr) : nir_deref_type :=
  match d with
  | deref_var _ _ _ => nir_deref_type_var
  | deref_array _ _ _ _ => nir_deref_type_array
  | deref_array_wildcard _ _ _ => nir_deref_type_array_wildcard
  | deref_struct _ _ _ _ => nir_deref_type_struct
  | deref_cast _ _ _ => nir_deref_type_cast
  | deref_cast_root _ _ => nir_deref_type_cast
  end.

Definition deref_mode (d : nir_deref_instr) : nir_variable_mode :=
  match d with
  | deref_var m _ _ | deref_array m _ _ _ | deref_array_wildcard m _ _
  | deref_struct m _ _ _ | deref_cast m _ _ | deref_cast_root m _ => m
  end.

Definition deref_glsl_type (d : nir_deref_instr) : glsl_type :=
  match d with
  | deref_var _ t _ | deref_array _ t _ _ | deref_array_wildcard _ t _
  | deref_struct _ t _ _ | deref_cast _ t _ | deref_cast_root _ t => t
  end.

(** [nir_deref_instr_parent]: NULL for a variable dereference. *)
Definition nir_deref_instr_parent (d : nir_deref_instr)
  : option nir_deref_instr :=
  match d with
  | deref_var _ _ _ => None
  | deref_array _ _ p _ => Some p
  | deref_array_wildcard _ _ p => Some p
  | deref_struct _ _ p _ => Some p
  | deref_cast _ _ p => Some p
  | deref_cast_root _ _ => None
  end.

(** [nir_deref_instr_get_variable]: walks to the root; NULL through a cast. *)
Fixpoint nir_deref_instr_get_variable (d : nir_deref_instr)
  : option nir_variable :=
  match d with
  | deref_var _ _ v => Some v
  | deref_array _ _ p _ => nir_deref_instr_get_variable p
  | deref_array_wildcard _ _ p => nir_deref_instr_get_variable p
  | deref_struct _ _ p _ => nir_deref_instr_get_variable p
  | deref_cast _ _ _ => None
  | deref_cast_root _ _ => None
  end.

(** ** Hashing and equality of dereferences *)

(** The FNV-1a primitives of the hash-table utility, taken as given:
    [_mesa_fnv32_1a_offset_bias], and [_mesa_fnv32_1a_accumulate] at the two
    types it is used at (a variable pointer, an unsigned field index). *)
Class fnv32_1a : Type := {
  fnv32_1a_offset_bias : Z;
  fnv32_1a_accumulate_ptr : Z -> nat -> Z;
  fnv32_1a_accumulate_u32 : Z -> Z -> Z
}.

(** The loop of [hash_deref], from a running [hash]. *)
Fixpoint hash_deref_loop `{fnv32_1a} (hash : Z) (deref : nir_deref_instr)
  : result Z :=
  match deref with
  | deref_var _ _ var => Ok (fnv32_1a_accumulate_ptr hash (var_id var))
  | deref_array _ _ parent _ => hash_deref_loop hash parent
  | deref_struct _ _ parent index =>
      hash_deref_loop (fnv32_1a_accumulate_u32 hash index) parent
  | _ => Fatal Unreachable_invalid_deref_type
  end.

Definition hash_deref `{fnv32_1a} (deref : nir_deref_instr) : result Z :=
  hash_deref_loop fnv32_1a_offset_bias deref.

(** [derefs_equal]: both chains are walked in lockstep.  A difference of
    node kinds answers false before the [switch] is reached; inside the
    [switch] both nodes have the kind of [a]. *)
Fixpoint derefs_equal (a b : nir_deref_instr) : result bool :=
  match a with
  | deref_var _ _ var_a =>
      match b with
      | deref_var _ _ var_b => Ok (Nat.eqb (var_id var_a) (var_id var_b))
      | _ => Ok false
      end
  | deref_array _ _ parent_a _ =>
      match b with
      | deref_array _ _ parent_b _ => derefs_equal parent_a parent_b
      | _ => Ok false
      end
  | deref_struct _ _ parent_a index_a =>
      match b with
      | deref_struct _ _ parent_b index_b =>
          if negb (index_a =? index_b) then Ok false
          else derefs_equal parent_a parent_b
      | _ => Ok false
      end
  | _ =>
      if negb (nir_deref_type_eqb (deref_type_of a) (deref_type_of b))
      then Ok false
      else Fatal Unreachable_invalid_deref_type
  end.

(** ** Registers and the register table *)

(** A [nir_register]; [reg_index] is the number [nir_local_reg_create]
    draws from the function's [reg_alloc] counter and identifies the
    object. *)
Record nir_register : Type := mk_register {
  reg_index : nat;
  num_components : Z;
  num_array_elems : Z;
  bit_size : Z
}.

Record hash_entry : Type := mk_entry {
  entry_hash : Z;
  entry_key : nir_deref_instr;
  entry_data : nir_register
}.

(** Modelled from the spec: the hash table is an external utility; a table
    is the list of its entries.  A search answers an entry with the same
    precomputed hash whose key the table's equality function accepts. *)
Fixpoint hash_table_search_pre_hashed (ht : list hash_entry) (hash : Z)
    (key : nir_deref_instr) : result (option hash_entry) :=
  match ht with
  | [] => Ok None
  | entry :: rest =>
      if entry_hash entry =? hash then
        match derefs_equal key (entry_key entry) with
        | Fatal e => Fatal e
        | Ok true => Ok (Some entry)
        | Ok false => hash_table_search_pre_hashed rest hash key
        end
      else hash_table_search_pre_hashed rest hash key
  end.

(** Modelled from the spec: insertion adds an entry; nothing is removed or
    changed afterwards. *)
Definition hash_table_insert_pre_hashed (ht : list hash_entry) (hash : Z)
    (key : nir_deref_instr) (data : nir_register) : list hash_entry :=
  ht ++ [mk_entry hash key data].

(** ** Instructions *)

(** The register form of a [nir_src] or [nir_dest]: [reg.reg],
    [reg.base_offset] and [reg.indirect]. *)
Record nir_reg_src : Type := mk_reg_src {
  reg : nir_register;
  base_offset : Z;
  indirect : option nir_src
}.

(** A destination: an SSA definition of its own, or a register slot. *)
Inductive nir_dest : Type :=
| dest_ssa (index : nat) (components : Z) (bits : Z)
| dest_reg (r : nir_reg_src).

(** The source operand of a move: a value, or a register read. *)
Inductive nir_alu_src : Type :=
| alu_src_value (s : nir_src)
| alu_src_reg (r : nir_reg_src).

(** A [nir_op_imov] ALU instruction. *)
Record nir_alu_instr : Type := mk_imov {
  alu_src0 : nir_alu_src;
  alu_dest : nir_dest;
  write_mask : Z
}.

Inductive nir_intrinsic_instr : Type :=
| load_deref (deref : nir_deref_instr) (num_components : Z) (dest : nir_dest)
| store_deref (deref : nir_deref_instr) (value : nir_src) (wrmask : Z)
| copy_deref (dst src : nir_deref_instr)
| other_intrinsic (op : nat).

(** Instructions of a block.  [instr_def d] is the load_const or ALU
    instruction the builder emitted to define [d]; [instr_other] stands
    for every instruction type the pass skips (tex, jump, phi, call, ...).
    Dereference instructions are instructions of their own and are not
    intrinsics. *)
Inductive nir_instr : Type :=
| instr_alu (alu : nir_alu_instr)
| instr_def (def : nir_ssa_def)
| instr_deref (deref : nir_deref_instr)
| instr_intrinsic (intrin : nir_intrinsic_instr)
| instr_other (tag : nat).

(** ** Pass state

    [struct locals_to_regs_state], together with what the builder reaches
    through [builder.impl]: the function's register list and [reg_alloc]
    counter, and the instructions inserted at the builder's cursor. *)
Record locals_to_regs_state : Type := mk_state {
  regs_table : list hash_entry;
  progress : bool;
  impl_registers : list nir_register;
  impl_reg_alloc : nat;
  inserted : list nir_instr
}.

(** State and failure monad of the pass. *)
Definition M (A : Type) : Type :=
  locals_to_regs_state -> result (A * locals_to_regs_state).

Definition ret {A} (a : A) : M A := fun st => Ok (a, st).

Definition bind {A B} (m : M A) (f : A -> M B) : M B :=
  fun st => match m st with
            | Ok (a, st') => f a st'
            | Fatal e => Fatal e
            end.

Definition lift {A} (r : result A) : M A :=
  fun st => match r with Ok a => Ok (a, st) | Fatal e => Fatal e end.

Definition assert (b : bool) (e : fatal) : M unit :=
  fun st => if b then Ok (tt, st) else Fatal e.

Definition get_state : M locals_to_regs_state := fun st => Ok (st, st).
Definition put_state (st : locals_to_regs_state) : M unit :=
  fun _ => Ok (tt, st).

Declare Scope pass_scope.
Delimit Scope pass_scope with pass.
Notation "x <- m ;; k" := (bind m (fun x => k))
  (at level 61, m at next level, right associativity) : pass_scope.
Notation "m ;;; k" := (bind m (fun _ => k))
  (at level 61, right associativity) : pass_scope.
Local Open Scope pass_scope.

(** [nir_local_reg_create]: a zeroed register with a fresh index, linked
    into the function's register list. *)
Definition nir_local_reg_create : M nir_register :=
  st <- get_state ;;
  let r := mk_register (impl_reg_alloc st) 0 0 0 in
  put_state (mk_state (regs_table st) (progress st)
                      (impl_registers st ++ [r])
                      (S (impl_reg_alloc st)) (inserted st)) ;;;
  ret r.

(** Builder: insert an instruction at the cursor. *)
Definition nir_builder_instr_insert (i : nir_instr) : M unit :=
  st <- get_state ;;
  put_state (mk_state (regs_table st) (progress st) (impl_registers st)
                      (impl_reg_alloc st) (inserted st ++ [i])).

Definition nir_imm_int (x : Z) : M nir_ssa_def :=
  nir_builder_instr_insert (instr_def (ssa_load_const x)) ;;;
  ret (ssa_load_const x).

Definition nir_iadd (x y : nir_ssa_def) : M nir_ssa_def :=
  nir_builder_instr_insert (instr_def (ssa_iadd x y)) ;;;
  ret (ssa_iadd x y).

Definition nir_imul (x y : nir_ssa_def) : M nir_ssa_def :=
  nir_builder_instr_insert (instr_def (ssa_imul x y)) ;;;
  ret (ssa_imul x y).

(** [nir_ssa_for_src (b, src, 1)]: the SSA value itself, or a move of a
    register source into a fresh SSA value. *)
Definition nir_ssa_for_src (s : nir_src) : M nir_ssa_def :=
  match s with
  | src_ssa d => ret d
  | src_reg r =>
      nir_builder_instr_insert (instr_def (ssa_mov r)) ;;;
      ret (ssa_mov r)
  end.

(** ** get_reg_for_deref *)

(** The sizing loop of [get_reg_for_deref]: every array link multiplies the
    running [unsigned] product by the length of its parent's type. *)
Fixpoint array_size_loop (d : nir_deref_instr) (array_size : Z) : Z :=
  match d with
  | deref_var _ _ _ => array_size
  | deref_array _ _ parent _ =>
      array_size_loop parent
        (u32 (array_size * glsl_get_length (deref_glsl_type parent)))
  | deref_array_wildcard _ _ parent => array_size_loop parent array_size
  | deref_struct _ _ parent _ => array_size_loop parent array_size
  | deref_cast _ _ parent => array_size_loop parent array_size
  | deref_cast_root _ _ => array_size
  end.

Definition set_regs_table (t : list hash_entry) : M unit :=
  st <- get_state ;;
  put_state (mk_state t (progress st) (impl_registers st)
                      (impl_reg_alloc st) (inserted st)).

(** The register object lives in the function's list; this writes the
    fields of the one created last. *)
Definition set_last_register (r : nir_register) : M unit :=
  st <- get_state ;;
  put_state (mk_state (regs_table st) (progress st)
                      (removelast (impl_registers st) ++ [r])
                      (impl_reg_alloc st) (inserted st)).

Definition get_reg_for_deref `{fnv32_1a} (deref : nir_deref_instr)
  : M nir_register :=
  hash <- lift (hash_deref deref) ;;
  match nir_deref_instr_get_variable deref with
  | None => lift (Fatal Null_dereference)
  | Some var =>
      assert (match constant_initializer var with
              | None => true | Some _ => false end)
             Assert_constant_initializer ;;;
      st <- get_state ;;
      entry <- lift (hash_table_search_pre_hashed (regs_table st) hash deref) ;;
      match entry with
      | Some e => ret (entry_data e)
      | None =>
          let array_size := array_size_loop deref 1 in
          assert (glsl_type_is_vector_or_scalar (deref_glsl_type deref))
                 Assert_vector_or_scalar ;;;
          reg0 <- nir_local_reg_create ;;
          let reg :=
            mk_register (reg_index reg0)
              (glsl_get_vector_elements (deref_glsl_type deref))
              (if 1 <? array_size then array_size else 0)
              (glsl_get_bit_size (deref_glsl_type deref)) in
          set_last_register reg ;;;
          st' <- get_state ;;
          set_regs_table
            (hash_table_insert_pre_hashed (regs_table st') hash deref reg) ;;;
          ret reg
      end
  end.

(** ** get_deref_reg_src *)

(** Body of the linearization loop at one array link with index operand
    [index].  The three builder calls that form the new addend are taken
    left to right. *)
Definition deref_reg_src_link (index : nir_src) (src : nir_reg_src)
    (inner_array_size : Z) : M nir_reg_src :=
  match nir_src_as_const_value index, indirect src with
  | Some const_index, None =>
      ret (mk_reg_src (reg src)
             (u32 (base_offset src + const_index * inner_array_size))
             (indirect src))
  | _, _ =>
      src1 <- match indirect src with
              | Some _ =>
                  assert (base_offset src =? 0) Assert_base_offset_zero ;;;
                  ret src
              | None =>
                  imm <- nir_imm_int (base_offset src) ;;
                  ret (mk_reg_src (reg src) 0 (Some (src_ssa imm)))
              end ;;
      match indirect src1 with
      | Some (src_ssa ssa) =>
          idx <- nir_ssa_for_src index ;;
          stride <- nir_imm_int inner_array_size ;;
          prod <- nir_imul idx stride ;;
          sum <- nir_iadd ssa prod ;;
          ret (mk_reg_src (reg src1) (base_offset src1) (Some (src_ssa sum)))
      | _ => lift (Fatal Assert_indirect_is_ssa)
      end
  end.

(** The linearization loop, leaf to root; only array links take part. *)
Fixpoint deref_reg_src_loop (d : nir_deref_instr) (src : nir_reg_src)
    (inner_array_size : Z) : M nir_reg_src :=
  match d with
  | deref_var _ _ _ => ret src
  | deref_array _ _ parent index =>
      src' <- deref_reg_src_link index src inner_array_size ;;
      deref_reg_src_loop parent src'
        (u32 (inner_array_size * glsl_get_length (deref_glsl_type parent)))
  | deref_array_wildcard _ _ parent =>
      deref_reg_src_loop parent src inner_array_size
  | deref_struct _ _ parent _ =>
      deref_reg_src_loop parent src inner_array_size
  | deref_cast _ _ parent => deref_reg_src_loop parent src inner_array_size
  | deref_cast_root _ _ => ret src
  end.

Definition get_deref_reg_src `{fnv32_1a} (deref : nir_deref_instr)
  : M nir_reg_src :=
  r <- get_reg_for_deref deref ;;
  let src := mk_reg_src r 0 None in
  if num_array_elems (reg src) =? 0 then ret src
  else deref_reg_src_loop deref src 1.

(** ** Rewriting a block *)

Definition set_progress (p : bool) : M unit :=
  st <- get_state ;;
  put_state (mk_state (regs_table st) p (impl_registers st)
                      (impl_reg_alloc st) (inserted st)).

(** [b->cursor = nir_before_instr(...)]: what is inserted from now on goes
    in front of the instruction under rewrite. *)
Definition set_cursor_before_instr : M unit :=
  st <- get_state ;;
  put_state (mk_state (regs_table st) (progress st) (impl_registers st)
                      (impl_reg_alloc st) []).

Definition take_inserted : M (list nir_instr) :=
  st <- get_state ;;
  ret (inserted st).

(** One iteration of the instruction loop of [lower_locals_to_regs_block]:
    the instructions that stand in place of [instr] afterwards.  For an SSA
    destination the move defines the value all uses of the load are
    redirected to; it keeps the load's index here. *)
Definition lower_locals_to_regs_instr `{fnv32_1a} (instr : nir_instr)
  : M (list nir_instr) :=
  match instr with
  | instr_intrinsic (load_deref deref num_components dest) =>
      if negb (nir_variable_mode_eqb (deref_mode deref) nir_var_local)
      then ret [instr]
      else
        set_cursor_before_instr ;;;
        src <- get_deref_reg_src deref ;;
        let mask := Z.shiftl 1 num_components - 1 in
        let mov_dest :=
          match dest with
          | dest_ssa index _ bits => dest_ssa index num_components bits
          | dest_reg r => dest_reg r
          end in
        nir_builder_instr_insert
          (instr_alu (mk_imov (alu_src_reg src) mov_dest mask)) ;;;
        set_progress true ;;;
        take_inserted
  | instr_intrinsic (store_deref deref value wrmask) =>
      if negb (nir_variable_mode_eqb (deref_mode deref) nir_var_local)
      then ret [instr]
      else
        set_cursor_before_instr ;;;
        reg_src <- get_deref_reg_src deref ;;
        nir_builder_instr_insert
          (instr_alu (mk_imov (alu_src_value value)
                        (dest_reg (mk_reg_src (reg reg_src)
                                     (base_offset reg_src)
                                     (indirect reg_src)))
                        wrmask)) ;;;
        set_progress true ;;;
        take_inserted
  | instr_intrinsic (copy_deref _ _) => lift (Fatal Unreachable_copy)
  | _ => ret [instr]
  end.

(** [nir_foreach_instr_safe] over the instruction list of a block. *)
Fixpoint lower_locals_to_regs_instrs `{fnv32_1a} (instrs : list nir_instr)
  : M (list nir_instr) :=
  match instrs with
  | [] => ret []
  | instr :: rest =>
      out <- lower_locals_to_regs_instr instr ;;
      out_rest <- lower_locals_to_regs_instrs rest ;;
      ret (out ++ out_rest)
  end.

(** A basic block: its identity, its instructions and its CFG edges. *)
Record nir_block : Type := mk_block {
  block_id : nat;
  instr_list : list nir_instr;
  successors : list nat;
  predecessors : list nat
}.

Definition lower_locals_to_regs_block `{fnv32_1a} (block : nir_block)
  : M nir_block :=
  instrs <- lower_locals_to_regs_instrs (instr_list block) ;;
  ret (mk_block (block_id block) instrs
                (successors block) (predecessors block)).

(** ** The pass over a function and over a shader *)

Record nir_metadata : Type := mk_metadata {
  metadata_block_index : bool;
  metadata_dominance : bool;
  metadata_live_ssa_defs : bool
}.

Record nir_function_impl : Type := mk_impl {
  blocks : list nir_block;
  registers : list nir_register;
  reg_alloc : nat;
  valid_metadata : nir_metadata
}.

(** Modelled from the spec: the metadata protocol is the host's; requiring
    dominance makes block indices and dominance valid. *)
Definition nir_metadata_require_dominance (impl : nir_function_impl)
  : nir_function_impl :=
  mk_impl (blocks impl) (registers impl) (reg_alloc impl)
          (mk_metadata true true
                       (metadata_live_ssa_defs (valid_metadata impl))).

(** Modelled from the spec: only block indices and dominance stay valid. *)
Definition nir_metadata_preserve_block_index_dominance (m : nir_metadata)
  : nir_metadata :=
  mk_metadata (metadata_block_index m) (metadata_dominance m) false.

(** [nir_foreach_block] over the blocks of the function. *)
Fixpoint lower_locals_to_regs_blocks `{fnv32_1a} (bs : list nir_block)
  : M (list nir_block) :=
  match bs with
  | [] => ret []
  | block :: rest =>
      block' <- lower_locals_to_regs_block block ;;
      rest' <- lower_locals_to_regs_blocks rest ;;
      ret (block' :: rest')
  end.

Definition nir_lower_locals_to_regs_impl `{fnv32_1a}
    (impl : nir_function_impl) : result (bool * nir_function_impl) :=
  let state := mk_state [] false (registers impl) (reg_alloc impl) [] in
  let impl1 := nir_metadata_require_dominance impl in
  match lower_locals_to_regs_blocks (blocks impl1) state with
  | Fatal e => Fatal e
  | Ok (blocks', state') =>
      Ok (progress state',
          mk_impl blocks' (impl_registers state') (impl_reg_alloc state')
            (nir_metadata_preserve_block_index_dominance
               (valid_metadata impl1)))
  end.

Record nir_function : Type := mk_function {
  function_name : nat;
  function_impl : option nir_function_impl
}.

(** [nir_lower_locals_to_regs]: every function with a body. *)
Fixpoint nir_lower_locals_to_regs_functions `{fnv32_1a}
    (fs : list nir_function) (progress : bool)
  : result (bool * list nir_function) :=
  match fs with
  | [] => Ok (progress, [])
  | f :: rest =>
      match function_impl f with
      | None =>
          match nir_lower_locals_to_regs_functions rest progress with
          | Fatal e => Fatal e
          | Ok (p, rest') => Ok (p, f :: rest')
          end
      | Some impl =>
          match nir_lower_locals_to_regs_impl impl with
          | Fatal e => Fatal e
          | Ok (p1, impl') =>
              match nir_lower_locals_to_regs_functions rest
                      (p1 || progress) with
              | Fatal e => Fatal e
              | Ok (p, rest') =>
                  Ok (p, mk_function (function_name f) (Some impl') :: rest')
              end
          end
      end
  end.

Definition nir_lower_locals_to_regs `{fnv32_1a} (shader : list nir_function)
  : result (bool * list nir_function) :=
  nir_lower_locals_to_regs_functions shader false.

(** ** Notions used to state the properties *)

(** A link of a chain, without its index operand. *)
Inductive deref_link : Type :=
| link_array
| link_struct (index : Z).

(** The links of a chain, leaf first. *)
Fixpoint deref_links (d : nir_deref_instr) : list deref_link :=
  match d with
  | deref_array _ _ parent _ => link_array :: deref_links parent
  | deref_struct _ _ parent index => link_struct index :: deref_links parent
  | _ => []
  end.

(** A chain made of array and struct links above a variable. *)
Fixpoint deref_chain_ok (d : nir_deref_instr) : bool :=
  match d with
  | deref_var _ _ _ => true
  | deref_array _ _ parent _ => deref_chain_ok parent
  | deref_struct _ _ parent _ => deref_chain_ok parent
  | _ => false
  end.

Definition struct_indices (links : list deref_link) : list Z :=
  flat_map (fun l => match l with
                     | link_array => []
                     | link_struct i => [i]
                     end) links.

(** The struct-field indices of a chain, leaf first. *)
Definition deref_struct_path (d : nir_deref_instr) : list Z :=
  struct_indices (deref_links d).

Definition deref_root_id (d : nir_deref_instr) : option nat :=
  option_map var_id (nir_deref_instr_get_variable d).

(** Canonical identity: root variable and struct-field path. *)
Definition canonical_identity (d : nir_deref_instr)
  : option nat * list Z :=
  (deref_root_id d, deref_struct_path d).

(** What [derefs_equal] compares: root variable and the sequence of links. *)
Definition deref_shape (d : nir_deref_instr)
  : option nat * list deref_link :=
  (deref_root_id d, deref_links d).

(** Every node has the type its parent's type gives it. *)
Fixpoint deref_types_ok (d : nir_deref_instr) : Prop :=
  match d with
  | deref_var _ t var => t = var_type var
  | deref_array _ t parent _ =>
      deref_types_ok parent /\
      glsl_get_array_element (deref_glsl_type parent) = Some t
  | deref_struct _ t parent index =>
      deref_types_ok parent /\
      glsl_get_struct_field (deref_glsl_type parent) index = Some t
  | _ => False
  end.

(** A well-formed chain as the pass receives it from a load or a store:
    well typed, ending in a vector or scalar. *)
Definition deref_well_formed (d : nir_deref_instr) : Prop :=
  deref_types_ok d /\
  glsl_type_is_vector_or_scalar (deref_glsl_type d) = true.

(** The type reached from [t] along links given root first. *)
Fixpoint type_along (t : glsl_type) (links : list deref_link)
  : option glsl_type :=
  match links with
  | [] => Some t
  | link_array :: rest =>
      match glsl_get_array_element t with
      | Some e => type_along e rest
      | None => None
      end
  | link_struct i :: rest =>
      match glsl_get_struct_field t i with
      | Some f => type_along f rest
      | None => None
      end
  end.

(** The declared element counts met at the array links, leaf first. *)
Fixpoint array_dimensions (d : nir_deref_instr) : list Z :=
  match d with
  | deref_array _ _ parent _ =>
      glsl_get_length (deref_glsl_type parent) :: array_dimensions parent
  | deref_array_wildcard _ _ parent => array_dimensions parent
  | deref_struct _ _ parent _ => array_dimensions parent
  | deref_cast _ _ parent => array_dimensions parent
  | _ => []
  end.

(** The product of all array dimensions of a chain, as an [unsigned]. *)
Definition array_dimensions_product (d : nir_deref_instr) : Z :=
  u32 (fold_right Z.mul 1 (array_dimensions d)).

(** Value of an index expression; [env] gives the SSA values defined
    elsewhere, [regs] the registers read by a move. *)
Fixpoint eval_ssa (env regs : nat -> Z) (d : nir_ssa_def) : Z :=
  match d with
  | ssa_load_const v => u32 v
  | ssa_value i => u32 (env i)
  | ssa_mov r => u32 (regs r)
  | ssa_iadd a b => u32 (eval_ssa env regs a + eval_ssa env regs b)
  | ssa_imul a b => u32 (eval_ssa env regs a * eval_ssa env regs b)
  end.

Definition eval_src (env regs : nat -> Z) (s : nir_src) : Z :=
  match s with
  | src_ssa d => eval_ssa env regs d
  | src_reg r => u32 (regs r)
  end.

(** The array element a register operand addresses. *)
Definition reg_src_element (env regs : nat -> Z) (s : nir_reg_src) : Z :=
  u32 (base_offset s +
       match indirect s with
       | None => 0
       | Some i => eval_src env regs i
       end).

(** The invariant the walk asserts: a dynamic index leaves no offset. *)
Definition offset_folded (s : nir_reg_src) : Prop :=
  match indirect s with
  | None => True
  | Some i => base_offset s = 0 /\ is_ssa i = true
  end.

(** The operand at the head of every iteration of the linearization loop
    that is reached, and after the last one. *)
Fixpoint deref_reg_src_trace (d : nir_deref_instr) (src : nir_reg_src)
    (inner_array_size : Z) (st : locals_to_regs_state)
  : list nir_reg_src :=
  match d with
  | deref_var _ _ _ => [src]
  | deref_array _ _ parent index =>
      src ::
      match deref_reg_src_link index src inner_array_size st with
      | Ok (src', st') =>
          deref_reg_src_trace parent src'
            (u32 (inner_array_size * glsl_get_length (deref_glsl_type parent)))
            st'
      | Fatal _ => []
      end
  | deref_array_wildcard _ _ parent =>
      deref_reg_src_trace parent src inner_array_size st
  | deref_struct _ _ parent _ =>
      deref_reg_src_trace parent src inner_array_size st
  | deref_cast _ _ parent => deref_reg_src_trace parent src inner_array_size st
  | deref_cast_root _ _ => [src]
  end.

(** State of the pass when [nir_lower_locals_to_regs_impl] enters its
    block loop. *)
Definition initial_state (impl : nir_function_impl) : locals_to_regs_state :=
  mk_state [] false (registers impl) (reg_alloc impl) [].

(** States met during the lowering of one function: register lookups and
    builder activity that leaves the table and the registers alone. *)
Inductive lowering_reaches `{fnv32_1a}
  : locals_to_regs_state -> locals_to_regs_state -> Prop :=
| reaches_refl st : lowering_reaches st st
| reaches_lookup st d r st1 st2 :
    get_reg_for_deref d st = Ok (r, st1) ->
    lowering_reaches st1 st2 ->
    lowering_reaches st st2
| reaches_builder st p ins st2 :
    lowering_reaches
      (mk_state (regs_table st) p (impl_registers st) (impl_reg_alloc st) ins)
      st2 ->
    lowering_reaches st st2.

(** An instruction the pass leaves in place. *)
Definition instr_untouched (i : nir_instr) : bool :=
  match i with
  | instr_intrinsic (load_deref d _ _) =>
      negb (nir_variable_mode_eqb (deref_mode d) nir_var_local)
  | instr_intrinsic (store_deref d _ _) =>
      negb (nir_variable_mode_eqb (deref_mode d) nir_var_local)
  | instr_intrinsic (copy_deref _ _) => false
  | _ => true
  end.

(** A load or store that addresses local storage. *)
Definition is_local_load_store (i : nir_instr) : bool :=
  match i with
  | instr_intrinsic (load_deref d _ _) =>
      nir_variable_mode_eqb (deref_mode d) nir_var_local
  | instr_intrinsic (store_deref d _ _) =>
      nir_variable_mode_eqb (deref_mode d) nir_var_local
  | _ => false
  end.

(** Shape of the control-flow graph: the blocks and their edges. *)
Definition cfg_shape (impl : nir_function_impl)
  : list (nat * list nat * list nat) :=
  map (fun b => (block_id b, successors b, predecessors b)) (blocks impl).

(** An instance of the hash primitives to run the pass with: 32-bit FNV-1a
    over the little-endian bytes of the value. *)
Definition fnv32_1a_byte (hash byte : Z) : Z :=
  u32 (Z.lxor hash byte * 16777619).

Fixpoint fnv32_1a_block (hash : Z) (size : nat) (data : Z) : Z :=
  match size with
  | O => hash
  | S n => fnv32_1a_block (fnv32_1a_byte hash (Z.land data 255)) n
             (Z.shiftr data 8)
  end.

Definition mesa_fnv32_1a : fnv32_1a := {|
  fnv32_1a_offset_bias := 2166136261;
  fnv32_1a_accumulate_ptr := fun h p => fnv32_1a_block h 8 (Z.of_nat p);
  fnv32_1a_accumulate_u32 := fun h x => fnv32_1a_block h 4 x
|}.


(** The register [get_reg_for_deref] builds for a chain not yet in the
    table, when [index] is the next free register number. *)
Definition new_register (deref : nir_deref_instr) (index : nat)
  : nir_register :=
  mk_register index
    (glsl_get_vector_elements (deref_glsl_type deref))
    (if 1 <? array_size_loop deref 1 then array_size_loop deref 1 else 0)
    (glsl_get_bit_size (deref_glsl_type deref)).

(** The state after such a chain got its register. *)
Definition state_with_new_register (st : locals_to_regs_state) (hash : Z)
    (deref : nir_deref_instr) : locals_to_regs_state :=
  let r := new_register deref (impl_reg_alloc st) in
  mk_state (regs_table st ++ [mk_entry hash deref r]) (progress st)
           (impl_registers st ++ [r]) (S (impl_reg_alloc st)) (inserted st).

(** Invariant of the register table during one lowering. *)
Definition entry_ok `{fnv32_1a} (st : locals_to_regs_state) (e : hash_entry)
  : Prop :=
  deref_chain_ok (entry_key e) = true /\
  hash_deref (entry_key e) = Ok (entry_hash e) /\
  (reg_index (entry_data e) < impl_reg_alloc st)%nat.

Definition table_inv `{fnv32_1a} (st : locals_to_regs_state) : Prop :=
  Forall (entry_ok st) (regs_table st) /\
  NoDup (map (fun e => deref_shape (entry_key e)) (regs_table st)) /\
  NoDup (map (fun e => reg_index (entry_data e)) (regs_table st)).

(** ** Sample inputs *)

Definition vec4 : glsl_type := glsl_vector 32 4.
Definition float : glsl_type := glsl_vector 32 1.

Definition empty_impl : nir_function_impl :=
  mk_impl [] [] 0 (mk_metadata false false false).

(** [struct { float x; vec4 y; } s[2]], a local variable. *)
Definition sample_struct : glsl_type := glsl_struct [float; vec4].
Definition sample_var_s : nir_variable :=
  mk_variable 1 (glsl_array sample_struct 2) nir_var_local None.

(** [s[index].y] *)
Definition sample_s_y (index : nir_src) : nir_deref_instr :=
  deref_struct nir_var_local vec4
    (deref_array nir_var_local sample_struct
       (deref_var nir_var_local (glsl_array sample_struct 2) sample_var_s)
       index)
    1.

(** [s[index].x] *)
Definition sample_s_x (index : nir_src) : nir_deref_instr :=
  deref_struct nir_var_local float
    (deref_array nir_var_local sample_struct
       (deref_var nir_var_local (glsl_array sample_struct 2) sample_var_s)
       index)
    0.

(** The value of a result, [default] for a fatal one. *)
Definition result_value {A : Type} (default : A) (r : result A) : A :=
  match r with Ok a => a | Fatal _ => default end.

(** [float a[4]] with a constant initializer. *)
Definition sample_var_init : nir_variable :=
  mk_variable 2 (glsl_array float 4) nir_var_local (Some [1; 2; 3; 4]).

Definition sample_init_elem (index : nir_src) : nir_deref_instr :=
  deref_array nir_var_local float
    (deref_var nir_var_local (glsl_array float 4) sample_var_init) index.

(** [float m[3][4]], a local array of arrays, and [m[outer][inner]]. *)
Definition sample_var_m : nir_variable :=
  mk_variable 3 (glsl_array (glsl_array float 4) 3) nir_var_local None.

Definition sample_m_elem (outer inner : nir_src) : nir_deref_instr :=
  deref_array nir_var_local float
    (deref_array nir_var_local (glsl_array float 4)
       (deref_var nir_var_local (glsl_array (glsl_array float 4) 3)
          sample_var_m)
       outer)
    inner.

(** [float one[1]], a one-element local array, and [one[index]]. *)
Definition sample_var_one : nir_variable :=
  mk_variable 4 (glsl_array float 1) nir_var_local None.

Definition sample_one_elem (index : nir_src) : nir_deref_instr :=
  deref_array nir_var_local float
    (deref_var nir_var_local (glsl_array float 1) sample_var_one) index.

(** [a[outer][inner]] into a local array of arrays with outer size 3 and
    inner size 4, for any element type, variable and node modes. *)
Definition deref_3x4 (m0 m1 m2 : nir_variable_mode) (elt : glsl_type)
    (var : nir_variable) (outer inner : nir_src) : nir_deref_instr :=
  deref_array m2 elt
    (deref_array m1 (glsl_array elt 4)
       (deref_var m0 (glsl_array (glsl_array elt 4) 3) var)
       outer)
    inner.

(** The SSA value [nir_ssa_for_src] yields for an index operand. *)
Definition ssa_of_src (s : nir_src) : nir_ssa_def :=
  match s with
  | src_ssa d => d
  | src_reg r => ssa_mov r
  end.

(** Instructions the builder inserts, in order, to add one dynamic index at
    stride [stride] to the index [sum]. *)
Definition index_instrs (index : nir_src) (stride : Z) (sum : nir_ssa_def)
  : list nir_instr :=
  match index with
  | src_ssa _ => []
  | src_reg r => [instr_def (ssa_mov r)]
  end ++
  [instr_def (ssa_load_const stride);
   instr_def (ssa_imul (ssa_of_src index) (ssa_load_const stride));
   instr_def (ssa_iadd sum (ssa_imul (ssa_of_src index)
                                     (ssa_load_const stride)))].

(** [vec4 l[4]], a local array, and [l[index]]. *)
Definition sample_var_l : nir_variable :=
  mk_variable 5 (glsl_array vec4 4) nir_var_local None.

Definition sample_l_elem (index : nir_src) : nir_deref_instr :=
  deref_array nir_var_local vec4
    (deref_var nir_var_local (glsl_array vec4 4) sample_var_l) index.

(** A function of two blocks; the first stores to [l[1]] and loads it
    back, between instructions the pass has no business with. *)
Definition sample_impl : nir_function_impl :=
  mk_impl
    [mk_block 0
       [instr_deref (sample_l_elem (src_ssa (ssa_load_const 1)));
        instr_intrinsic
          (store_deref (sample_l_elem (src_ssa (ssa_load_const 1)))
                       (src_ssa (ssa_value 3)) 15);
        instr_other 0;
        instr_intrinsic
          (load_deref (sample_l_elem (src_ssa (ssa_load_const 1))) 4
                      (dest_ssa 9 4 32));
        instr_intrinsic (other_intrinsic 2)]
       [1%nat] [];
     mk_block 1
       [instr_intrinsic
          (load_deref (sample_l_elem (src_ssa (ssa_value 4))) 4
                      (dest_ssa 10 4 32))]
       [] [0%nat]]
    [] 0 (mk_metadata true false true).

(** A block with a copy between two local chains after a local store. *)
Definition sample_copy_block : nir_block :=
  mk_block 0
    [instr_intrinsic
       (store_deref (sample_l_elem (src_ssa (ssa_load_const 1)))
                    (src_ssa (ssa_value 3)) 15);
     instr_intrinsic
       (copy_deref (sample_l_elem (src_ssa (ssa_load_const 0)))
                   (sample_l_elem (src_ssa (ssa_load_const 1))));
     instr_other 0]
    [] [].

(** All instructions of a block are left in place by the pass. *)
Definition block_untouched (b : nir_block) : bool :=
  forallb instr_untouched (instr_list b).

(** The identity and the edges of a block. *)
Definition block_shape (b : nir_block) : nat * list nat * list nat :=
  (block_id b, successors b, predecessors b).

(** Input the pass is meant for: chains of local loads and stores are well
    formed and rooted at variables without initializer, and no copy is
    left. *)
Definition deref_lowerable (d : nir_deref_instr) : Prop :=
  deref_well_formed d /\
  exists var, nir_deref_instr_get_variable d = Some var /\
              constant_initializer var = None.

Definition instr_lowerable (i : nir_instr) : Prop :=
  match i with
  | instr_intrinsic (load_deref d _ _) =>
      deref_mode d = nir_var_local -> deref_lowerable d
  | instr_intrinsic (store_deref d _ _) =>
      deref_mode d = nir_var_local -> deref_lowerable d
  | instr_intrinsic (copy_deref _ _) => False
  | _ => True
  end.

Definition impl_lowerable (impl : nir_function_impl) : Prop :=
  Forall (fun b => Forall instr_lowerable (instr_list b)) (blocks impl).

(** [struct { float a[4]; } t[3]], a local variable, and
    [t[outer].a[inner]]. *)
Definition sample_struct_a : glsl_type := glsl_struct [glsl_array float 4].
Definition sample_var_t : nir_variable :=
  mk_variable 6 (glsl_array sample_struct_a 3) nir_var_local None.

Definition sample_t_a_elem (outer inner : nir_src) : nir_deref_instr :=
  deref_array nir_var_local float
    (deref_struct nir_var_local (glsl_array float 4)
       (deref_array nir_var_local sample_struct_a
          (deref_var nir_var_local (glsl_array sample_struct_a 3) sample_var_t)
          outer)
       0)
    inner.

(** ** Further notions *)

(** The chain with every array index operand sent through [f]; all other
    fields are kept. *)
Fixpoint map_array_indices (f : nir_src -> nir_src) (d : nir_deref_instr)
  : nir_deref_instr :=
  match d with
  | deref_var m t v => deref_var m t v
  | deref_array m t parent index =>
      deref_array m t (map_array_indices f parent) (f index)
  | deref_array_wildcard m t parent =>
      deref_array_wildcard m t (map_array_indices f parent)
  | deref_struct m t parent index =>
      deref_struct m t (map_array_indices f parent) index
  | deref_cast m t parent => deref_cast m t (map_array_indices f parent)
  | deref_cast_root m t => deref_cast_root m t
  end.

(** [s.y[*]]: a wildcard above a struct field of a local variable. *)
Definition sample_wildcard : nir_deref_instr :=
  deref_array_wildcard nir_var_local float
    (deref_struct nir_var_local (glsl_array float 4)
       (deref_var nir_var_local (glsl_struct [glsl_array float 4])
          (mk_variable 7 (glsl_struct [glsl_array float 4])
                       nir_var_local None))
       0).

(** The values of the index operands at the array links, leaf first. *)
Fixpoint array_index_values (env regs : nat -> Z) (d : nir_deref_instr)
  : list Z :=
  match d with
  | deref_array _ _ parent index =>
      eval_src env regs index :: array_index_values env regs parent
  | deref_array_wildcard _ _ parent => array_index_values env regs parent
  | deref_struct _ _ parent _ => array_index_values env regs parent
  | deref_cast _ _ parent => array_index_values env regs parent
  | _ => []
  end.

(** Row-major position of indices in an array of the given dimensions,
    innermost first: the innermost index has stride 1. *)
Fixpoint row_major (indices dims : list Z) : Z :=
  match indices, dims with
  | i :: indices', n :: dims' => i + n * row_major indices' dims'
  | _, _ => 0
  end.

Definition linear_index (env regs : nat -> Z) (d : nir_deref_instr) : Z :=
  row_major (array_index_values env regs d) (array_dimensions d).

(** Every array index of the chain is a compile-time constant. *)
Fixpoint all_indices_constant (d : nir_deref_instr) : bool :=
  match d with
  | deref_array _ _ parent index =>
      match nir_src_as_const_value index with
      | Some _ => all_indices_constant parent
      | None => false
      end
  | deref_array_wildcard _ _ parent => all_indices_constant parent
  | deref_struct _ _ parent _ => all_indices_constant parent
  | deref_cast _ _ parent => all_indices_constant parent
  | _ => true
  end.

(** Every index lies inside the array it indexes. *)
Definition indices_in_bounds (indices dims : list Z) : Prop :=
  Forall2 (fun i n => 0 <= i < n) indices dims.

(** The chains of the local loads and stores among instructions, in
    order. *)
Definition instr_local_chain (i : nir_instr) : list nir_deref_instr :=
  match i with
  | instr_intrinsic (load_deref d _ _) =>
      if nir_variable_mode_eqb (deref_mode d) nir_var_local then [d] else []
  | instr_intrinsic (store_deref d _ _) =>
      if nir_variable_mode_eqb (deref_mode d) nir_var_local then [d] else []
  | _ => []
  end.

Definition local_chains (l : list nir_instr) : list nir_deref_instr :=
  flat_map instr_local_chain l.

Definition impl_local_chains (impl : nir_function_impl)
  : list nir_deref_instr :=
  flat_map (fun b => local_chains (instr_list b)) (blocks impl).

Definition table_shapes (t : list hash_entry)
  : list (option nat * list deref_link) :=
  map (fun e => deref_shape (entry_key e)) t.

(** The table accounts for the chains [seen] so far and for every register
    created since the state with registers [regs0] and counter [alloc0]. *)
Definition table_accounts `{fnv32_1a} (regs0 : list nir_register)
    (alloc0 : nat) (seen : list nir_deref_instr)
    (st : locals_to_regs_state) : Prop :=
  table_inv st /\
  (forall s, In s (table_shapes (regs_table st)) <->
             In s (map deref_shape seen)) /\
  impl_reg_alloc st = (alloc0 + length (regs_table st))%nat /\
  impl_registers st = regs0 ++ map entry_data (regs_table st).

(** A function body holds a load or store of local storage. *)
Definition impl_has_local_access (impl : nir_function_impl) : bool :=
  existsb (fun b => existsb is_local_load_store (instr_list b)) (blocks impl).

Definition function_has_local_access (f : nir_function) : bool :=
  match function_impl f with
  | Some impl => impl_has_local_access impl
  | None => false
  end.

(** An instruction the builder inserted to compute an index. *)
Definition is_builder_def (i : nir_instr) : bool :=
  match i with instr_def _ => true | _ => false end.

(** What stands in place of an instruction after the block is rewritten:
    a local load or store gives way to index computations and one move,
    anything else stays. *)
Inductive rewritten_as : nir_instr -> list nir_instr -> Prop :=
| rewritten_load d n dst defs src :
    deref_mode d = nir_var_local ->
    forallb is_builder_def defs = true ->
    rewritten_as (instr_intrinsic (load_deref d n dst))
      (defs ++ [instr_alu
                  (mk_imov (alu_src_reg src)
                     match dst with
                     | dest_ssa index _ bits => dest_ssa index n bits
                     | dest_reg r => dest_reg r
                     end
                     (Z.shiftl 1 n - 1))])
| rewritten_store d v m defs src :
    deref_mode d = nir_var_local ->
    forallb is_builder_def defs = true ->
    rewritten_as (instr_intrinsic (store_deref d v m))
      (defs ++ [instr_alu (mk_imov (alu_src_value v) (dest_reg src) m)])
| rewritten_kept i :
    is_local_load_store i = false ->
    rewritten_as i [i].

(** [vec4 u[4]], a uniform, and a function that only reads it. *)
Definition sample_var_u : nir_variable :=
  mk_variable 8 (glsl_array vec4 4) nir_var_uniform None.

Definition sample_u_elem (index : nir_src) : nir_deref_instr :=
  deref_array nir_var_uniform vec4
    (deref_var nir_var_uniform (glsl_array vec4 4) sample_var_u) index.

Definition sample_impl_no_local : nir_function_impl :=
  mk_impl
    [mk_block 0
       [instr_intrinsic
          (load_deref (sample_u_elem (src_ssa (ssa_value 1))) 4
                      (dest_ssa 2 4 32));
        instr_other 1]
       [] []]
    [mk_register 0 4 0 32] 1 (mk_metadata false false false).

(** A shader: a function that uses a local array, a declaration without
    body, and a function that only reads a uniform. *)
Definition sample_shader : list nir_function :=
  [mk_function 0 (Some sample_impl);
   mk_function 1 None;
   mk_function 2 (Some sample_impl_no_local)].

Definition sample_impl_copy : nir_function_impl :=
  mk_impl [sample_copy_block] [] 0 (mk_metadata false false false).

Definition sample_shader_copy : list nir_function :=
  [mk_function 0 (Some sample_impl_no_local);
   mk_function 1 (Some sample_impl_copy)].

(** The root variable of the chain is the object [var_at] holds at its
    address. *)
Definition chain_in_store (var_at : nat -> nir_variable)
    (d : nir_deref_instr) : Prop :=
  exists v, nir_deref_instr_get_variable d = Some v /\
            var_at (var_id v) = v.

(** Every entry of the table was made for a well-formed chain and holds
    the register [get_reg_for_deref] builds for that chain. *)
Definition table_typed (var_at : nat -> nir_variable)
    (st : locals_to_regs_state) : Prop :=
  Forall (fun e =>
            deref_well_formed (entry_key e) /\
            chain_in_store var_at (entry_key e) /\
            entry_data e =
              new_register (entry_key e) (reg_index (entry_data e)))
         (regs_table st).

(** The variables of the sample inputs by address. *)
Definition sample_var_at (id : nat) : nir_variable :=
  match id with
  | 1%nat => sample_var_s
  | 2%nat => sample_var_init
  | 3%nat => sample_var_m
  | 4%nat => sample_var_one
  | 5%nat => sample_var_l
  | 6%nat => sample_var_t
  | _ => sample_var_u
  end.

(** The state after [one[0]] got its register in an empty function. *)
Definition sample_state_one : locals_to_regs_state :=
  state_with_new_register (initial_state empty_impl)
    (result_value 0
       (hash_deref (H := mesa_fnv32_1a)
          (sample_one_elem (src_ssa (ssa_load_const 0)))))
    (sample_one_elem (src_ssa (ssa_load_const 0))).

(** The state after [t[0].a[1]] got its register in an empty function. *)
Definition sample_state_t : locals_to_regs_state :=
  state_with_new_register (initial_state empty_impl)
    (result_value 0
       (hash_deref (H := mesa_fnv32_1a)
          (sample_t_a_elem (src_ssa (ssa_load_const 0))
                           (src_ssa (ssa_load_const 1)))))
    (sample_t_a_elem (src_ssa (ssa_load_const 0))
                     (src_ssa (ssa_load_const 1))).
(** * Properties *)

(** ** Equality and hashing of chains *)

Lemma derefs_equal_total (a : nir_deref_instr) :
  forall b, deref_chain_ok a = true -> deref_chain_ok b = true ->
            exists r, derefs_equal a b = Ok r.
Proof.
  induction a; intros b Ha Hb; simpl in Ha; try discriminate;
    destruct b; simpl in Hb; try discriminate; simpl; eauto.
  destruct (strct_index =? strct_index0); simpl; eauto.
Qed.

Lemma derefs_equal_true_iff (a : nir_deref_instr) :
  forall b, deref_chain_ok a = true -> deref_chain_ok b = true ->
            (derefs_equal a b = Ok true <-> deref_shape a = deref_shape b).
Proof.
  unfold deref_shape, deref_root_id.
  induction a; intros b Ha Hb; simpl in Ha; try discriminate;
    destruct b; simpl in Hb; try discriminate; simpl.
  - split; intros E.
    + inversion E as [E1]. apply Nat.eqb_eq in E1. now rewrite E1.
    + inversion E as [E1]. now rewrite Nat.eqb_refl.
  - split; intros E; inversion E.
  - split; intros E; inversion E.
  - split; intros E; inversion E.
  - specialize (IHa b Ha Hb). simpl in IHa. split; intros E.
    + apply IHa in E. inversion E. reflexivity.
    + apply IHa. inversion E. reflexivity.
  - split; intros E; inversion E.
  - split; intros E; inversion E.
  - split; intros E; inversion E.
  - specialize (IHa b Ha Hb). simpl in IHa.
    destruct (Z.eqb_spec strct_index strct_index0) as [->|N]; simpl.
    + split; intros E.
      * apply IHa in E. inversion E. reflexivity.
      * apply IHa. inversion E. reflexivity.
    + split; intros E; inversion E. congruence.
Qed.

Lemma derefs_equal_false_iff (a b : nir_deref_instr) :
  deref_chain_ok a = true -> deref_chain_ok b = true ->
  (derefs_equal a b = Ok false <-> deref_shape a <> deref_shape b).
Proof.
  intros Ha Hb.
  destruct (derefs_equal_total a b Ha Hb) as [r Hr].
  pose proof (derefs_equal_true_iff a b Ha Hb) as T.
  rewrite Hr in *. destruct r; split; intros E.
  - discriminate.
  - exfalso. apply E, T. reflexivity.
  - intros S. apply T in S. discriminate.
  - reflexivity.
Qed.

Lemma hash_deref_loop_total `{fnv32_1a} (d : nir_deref_instr) :
  forall h, deref_chain_ok d = true -> exists h', hash_deref_loop h d = Ok h'.
Proof.
  induction d; intros h Hd; simpl in Hd; try discriminate; simpl; eauto.
Qed.

Lemma hash_deref_loop_shape `{fnv32_1a} (a : nir_deref_instr) :
  forall b h, deref_chain_ok a = true -> deref_chain_ok b = true ->
              deref_shape a = deref_shape b ->
              hash_deref_loop h a = hash_deref_loop h b.
Proof.
  unfold deref_shape, deref_root_id.
  induction a; intros b h Ha Hb E; simpl in Ha; try discriminate;
    destruct b; simpl in Hb; try discriminate; simpl in E;
    inversion E; subst; simpl.
  - congruence.
  - apply IHa; auto. simpl. congruence.
  - apply IHa; auto. simpl. congruence.
Qed.

(** Equal chains hash alike: the hash agrees with the equality. *)
Lemma hash_deref_consistent `{fnv32_1a} (a b : nir_deref_instr) :
  deref_chain_ok a = true -> deref_chain_ok b = true ->
  derefs_equal a b = Ok true -> hash_deref a = hash_deref b.
Proof.
  intros Ha Hb E. apply hash_deref_loop_shape; auto.
  now apply derefs_equal_true_iff.
Qed.

(** ** The register table *)

Lemma search_found (ht : list hash_entry) (h : Z) (k : nir_deref_instr)
    (e : hash_entry) :
  hash_table_search_pre_hashed ht h k = Ok (Some e) ->
  In e ht /\ entry_hash e = h /\ derefs_equal k (entry_key e) = Ok true.
Proof.
  induction ht as [|x ht IH]; simpl; intros E; [discriminate|].
  destruct (Z.eqb_spec (entry_hash x) h) as [Hh|Hh].
  - destruct (derefs_equal k (entry_key x)) as [[|]|] eqn:Q; try discriminate.
    + inversion E; subst. auto.
    + destruct (IH E) as (? & ? & ?). auto.
  - destruct (IH E) as (? & ? & ?). auto.
Qed.

Lemma search_none (ht : list hash_entry) (h : Z) (k : nir_deref_instr) :
  hash_table_search_pre_hashed ht h k = Ok None ->
  forall e, In e ht -> entry_hash e = h ->
            derefs_equal k (entry_key e) = Ok false.
Proof.
  induction ht as [|x ht IH]; simpl; intros E e He Hh; [contradiction|].
  destruct (Z.eqb_spec (entry_hash x) h) as [Hx|Hx].
  - destruct (derefs_equal k (entry_key x)) as [[|]|] eqn:Q; try discriminate.
    destruct He as [->|He]; auto.
  - destruct He as [->|He]; [contradiction|auto].
Qed.

Lemma search_total (ht : list hash_entry) (h : Z) (k : nir_deref_instr) :
  deref_chain_ok k = true ->
  Forall (fun e => deref_chain_ok (entry_key e) = true) ht ->
  exists r, hash_table_search_pre_hashed ht h k = Ok r.
Proof.
  intros Hk. induction 1 as [|x ht Hx _ IH]; simpl; eauto.
  destruct (entry_hash x =? h); auto.
  destruct (derefs_equal_total k (entry_key x) Hk Hx) as [[|] ->]; eauto.
Qed.

Ltac run_monad :=
  unfold bind, ret, lift, assert, get_state, put_state,
         set_regs_table, set_last_register, nir_local_reg_create,
         set_progress, set_cursor_before_instr, take_inserted,
         nir_builder_instr_insert in *;
  simpl in *.

(** What a call of [get_reg_for_deref] that returns has done. *)
Lemma get_reg_for_deref_cases `{fnv32_1a} (d : nir_deref_instr)
    (st st' : locals_to_regs_state) (r : nir_register) :
  get_reg_for_deref d st = Ok (r, st') ->
  exists h var,
    hash_deref d = Ok h /\
    nir_deref_instr_get_variable d = Some var /\
    constant_initializer var = None /\
    ((exists e, hash_table_search_pre_hashed (regs_table st) h d = Ok (Some e)
                /\ r = entry_data e /\ st' = st) \/
     (hash_table_search_pre_hashed (regs_table st) h d = Ok None /\
      glsl_type_is_vector_or_scalar (deref_glsl_type d) = true /\
      r = new_register d (impl_reg_alloc st) /\
      st' = state_with_new_register st h d)).
Proof.
  unfold get_reg_for_deref. run_monad.
  destruct (hash_deref d) as [h|] eqn:Hh; [|discriminate].
  destruct (nir_deref_instr_get_variable d) as [var|] eqn:Hv; [|discriminate].
  destruct (constant_initializer var) eqn:Hc; [discriminate|].
  destruct (hash_table_search_pre_hashed (regs_table st) h d)
    as [[e|]|] eqn:Hs; [| |discriminate].
  - intros E; inversion E; subst. exists h, var. repeat split; eauto.
  - destruct (glsl_type_is_vector_or_scalar (deref_glsl_type d)) eqn:Hvec;
      [|discriminate].
    intros E; inversion E; subst. exists h, var.
    repeat split; auto. right. repeat split; auto.
    unfold state_with_new_register, new_register.
    rewrite removelast_last. reflexivity.
Qed.

Lemma hash_deref_loop_chain_ok `{fnv32_1a} (d : nir_deref_instr) :
  forall h h', hash_deref_loop h d = Ok h' -> deref_chain_ok d = true.
Proof.
  induction d; simpl; intros h h' E; try discriminate; eauto.
Qed.

Lemma entry_ok_alloc_le `{fnv32_1a} (st st' : locals_to_regs_state)
    (e : hash_entry) :
  (impl_reg_alloc st <= impl_reg_alloc st')%nat ->
  entry_ok st e -> entry_ok st' e.
Proof.
  unfold entry_ok. intros L (A & B & C). repeat split; auto. lia.
Qed.

(** Under the invariant a lookup answers the one entry of the chain's
    shape, whether it was there or has just been added. *)
Lemma get_reg_for_deref_entry `{fnv32_1a} (d : nir_deref_instr)
    (st st' : locals_to_regs_state) (r : nir_register) :
  table_inv st ->
  get_reg_for_deref d st = Ok (r, st') ->
  table_inv st' /\
  deref_chain_ok d = true /\
  (exists ext, regs_table st' = regs_table st ++ ext) /\
  (exists e, In e (regs_table st') /\
             deref_shape (entry_key e) = deref_shape d /\
             entry_data e = r).
Proof.
  intros (Hok & Hshape & Hidx) E.
  destruct (get_reg_for_deref_cases d st st' r E)
    as (h & var & Hh & Hv & Hc & [(e & Hs & -> & ->)|(Hs & Hvec & -> & ->)]).
  - pose proof (hash_deref_loop_chain_ok d _ _ Hh) as Hd.
    destruct (search_found _ _ _ _ Hs) as (Hin & Heh & Heq).
    split; [repeat split; auto|]. split; [auto|].
    split; [exists []; now rewrite app_nil_r|].
    exists e. repeat split; auto.
    rewrite Forall_forall in Hok. destruct (Hok e Hin) as (Hk & _).
    symmetry. now apply derefs_equal_true_iff.
  - pose proof (hash_deref_loop_chain_ok d _ _ Hh) as Hd.
    assert (Hfresh : forall e, In e (regs_table st) ->
                               deref_shape (entry_key e) <> deref_shape d).
    { intros e Hin S. rewrite Forall_forall in Hok.
      destruct (Hok e Hin) as (Hk & Hhe & _).
      assert (Q : hash_deref (entry_key e) = hash_deref d)
        by (apply hash_deref_loop_shape; auto).
      rewrite Hhe, Hh in Q. inversion Q as [Q'].
      pose proof (search_none _ _ _ Hs e Hin Q') as F.
      apply derefs_equal_false_iff in F; auto. }
    unfold state_with_new_register; simpl.
    split; [|split; [auto|split]].
    + unfold table_inv; simpl. split; [|split].
      * apply Forall_app. split.
        -- eapply Forall_impl; [|exact Hok].
           intros e. apply entry_ok_alloc_le. simpl. lia.
        -- constructor; [|constructor].
           unfold entry_ok; simpl. repeat split; auto.
      * rewrite map_app. simpl.
        apply NoDup_app; [exact Hshape|repeat constructor; intros []|].
        intros s Hs1 [<-|[]]. apply in_map_iff in Hs1.
        destruct Hs1 as (e & Q & Hin). exact (Hfresh e Hin Q).
      * rewrite map_app. simpl.
        apply NoDup_app; [exact Hidx|repeat constructor; intros []|].
        intros s Hs1 [<-|[]]. apply in_map_iff in Hs1.
        destruct Hs1 as (e & Q & Hin). rewrite Forall_forall in Hok.
        destruct (Hok e Hin) as (_ & _ & L). lia.
    + eexists. reflexivity.
    + eexists. split; [apply in_or_app; right; left; reflexivity|].
      simpl. auto.
Qed.

Lemma NoDup_map_In_inj {A B : Type} (f : A -> B) (l : list A) :
  NoDup (map f l) ->
  forall x y, In x l -> In y l -> f x = f y -> x = y.
Proof.
  induction l as [|a l IH]; simpl; intros N x y Hx Hy E; [contradiction|].
  inversion N as [|? ? Hn N']; subst.
  destruct Hx as [->|Hx], Hy as [->|Hy]; auto.
  - exfalso. apply Hn. rewrite E. now apply in_map.
  - exfalso. apply Hn. rewrite <- E. now apply in_map.
Qed.

Lemma builder_table_inv `{fnv32_1a} (st : locals_to_regs_state)
    (p : bool) (ins : list nir_instr) :
  table_inv st ->
  table_inv (mk_state (regs_table st) p (impl_registers st)
                      (impl_reg_alloc st) ins).
Proof. intros I. exact I. Qed.

(** The table only grows, and keeps its invariant, along a lowering. *)
Lemma lowering_reaches_table `{fnv32_1a} (st st' : locals_to_regs_state) :
  lowering_reaches st st' ->
  table_inv st ->
  table_inv st' /\ exists ext, regs_table st' = regs_table st ++ ext.
Proof.
  induction 1 as [st|st d r st1 st2 E _ IH|st p ins st2 _ IH]; intros I.
  - split; [auto|]. exists []. now rewrite app_nil_r.
  - destruct (get_reg_for_deref_entry d st st1 r I E)
      as (I1 & _ & (ext1 & X1) & _).
    destruct (IH I1) as (I2 & ext2 & X2). split; [auto|].
    exists (ext1 ++ ext2). rewrite X2, X1. now rewrite app_assoc.
  - destruct (IH (builder_table_inv st p ins I)) as (I2 & ext2 & X2).
    split; [auto|]. exists ext2. exact X2.
Qed.

Lemma initial_state_table_inv `{fnv32_1a} (impl : nir_function_impl) :
  table_inv (initial_state impl).
Proof.
  unfold table_inv, initial_state; simpl. repeat split; constructor.
Qed.

(** ** Typed chains: the links follow from the types *)

Lemma struct_indices_app (l1 l2 : list deref_link) :
  struct_indices (l1 ++ l2) = struct_indices l1 ++ struct_indices l2.
Proof. unfold struct_indices. apply flat_map_app. Qed.

Lemma struct_indices_rev (l : list deref_link) :
  struct_indices (rev l) = rev (struct_indices l).
Proof.
  induction l as [|x l IH]; simpl; [reflexivity|].
  rewrite struct_indices_app, IH. simpl. rewrite app_nil_r.
  destruct x; simpl; [now rewrite app_nil_r|reflexivity].
Qed.

Lemma type_along_app (l1 l2 : list deref_link) :
  forall t, type_along t (l1 ++ l2) =
            match type_along t l1 with
            | Some t' => type_along t' l2
            | None => None
            end.
Proof.
  induction l1 as [|x l1 IH]; simpl; intros t; [reflexivity|].
  destruct x.
  - destruct (glsl_get_array_element t); auto.
  - destruct (glsl_get_struct_field t index); auto.
Qed.

Lemma deref_types_ok_chain_ok (d : nir_deref_instr) :
  deref_types_ok d -> deref_chain_ok d = true.
Proof.
  induction d; simpl; intros T; try contradiction; auto; apply IHd, T.
Qed.

Lemma deref_types_ok_type_along (d : nir_deref_instr) :
  deref_types_ok d ->
  exists var, nir_deref_instr_get_variable d = Some var /\
              type_along (var_type var) (rev (deref_links d)) =
              Some (deref_glsl_type d).
Proof.
  induction d; simpl; intros T; try contradiction.
  - exists var. subst. auto.
  - destruct T as (T & E). destruct (IHd T) as (v & Hv & Ht).
    exists v. split; [auto|]. rewrite type_along_app, Ht. simpl.
    now rewrite E.
  - destruct T as (T & E). destruct (IHd T) as (v & Hv & Ht).
    exists v. split; [auto|]. rewrite type_along_app, Ht. simpl.
    now rewrite E.
Qed.

(** From one type, two paths to vectors with the same struct fields
    take the same links. *)
Lemma type_along_links_determined (la : list deref_link) :
  forall lb t ta tb,
    type_along t la = Some ta -> type_along t lb = Some tb ->
    glsl_type_is_vector_or_scalar ta = true ->
    glsl_type_is_vector_or_scalar tb = true ->
    struct_indices la = struct_indices lb ->
    la = lb.
Proof.
  induction la as [|x la IH]; intros lb t ta tb Ha Hb Va Vb S.
  - simpl in Ha. inversion Ha; subst.
    destruct lb as [|y lb]; [reflexivity|].
    destruct ta; simpl in Va; try discriminate.
    destruct y; simpl in Hb; discriminate.
  - destruct lb as [|y lb].
    + simpl in Hb. inversion Hb; subst.
      destruct tb; simpl in Vb; try discriminate.
      destruct x; simpl in Ha; discriminate.
    + destruct x, y; simpl in Ha, Hb.
      * destruct (glsl_get_array_element t) as [e|]; [|discriminate].
        f_equal. eapply IH; eauto.
      * destruct t; simpl in Ha, Hb; discriminate.
      * destruct t; simpl in Ha, Hb; discriminate.
      * simpl in S. inversion S; subst.
        destruct (glsl_get_struct_field t index0) as [f|]; [|discriminate].
        f_equal. eapply IH; eauto.
Qed.

(** For well-formed chains the shape compared by [derefs_equal] and the
    canonical identity say the same. *)
Lemma well_formed_shape_iff_identity (a b : nir_deref_instr) :
  deref_well_formed a -> deref_well_formed b ->
  (forall va vb, nir_deref_instr_get_variable a = Some va ->
                 nir_deref_instr_get_variable b = Some vb ->
                 var_id va = var_id vb -> va = vb) ->
  (deref_shape a = deref_shape b <->
   canonical_identity a = canonical_identity b).
Proof.
  intros (Ta & Va) (Tb & Vb) Hobj.
  unfold deref_shape, canonical_identity, deref_struct_path. split; intros E.
  - inversion E as [[E1 E2]]. now rewrite E2.
  - inversion E as [[E1 E2]]. f_equal.
    destruct (deref_types_ok_type_along a Ta) as (va & Hva & Hta).
    destruct (deref_types_ok_type_along b Tb) as (vb & Hvb & Htb).
    unfold deref_root_id in E1. rewrite Hva, Hvb in E1. simpl in E1.
    inversion E1 as [E1']. pose proof (Hobj va vb Hva Hvb E1') as ->.
    assert (R : rev (deref_links a) = rev (deref_links b)).
    { eapply type_along_links_determined; eauto.
      rewrite !struct_indices_rev. now rewrite E2. }
    rewrite <- (rev_involutive (deref_links a)), R. apply rev_involutive.
Qed.

(** ** Register identity *)

(** C1. Within the lowering of one function, two well-formed chains get
    the same register from [get_reg_for_deref] exactly when they have the
    same root variable and the same struct-field path, whatever their
    array indices: equal canonical identity gives one register object,
    a different one gives registers with different numbers. *)
Theorem get_reg_for_deref_shares_by_identity `{fnv32_1a}
    (impl : nir_function_impl) (st st1 st2 st3 : locals_to_regs_state)
    (a b : nir_deref_instr) (ra rb : nir_register) :
  deref_well_formed a -> deref_well_formed b ->
  (forall va vb, nir_deref_instr_get_variable a = Some va ->
                 nir_deref_instr_get_variable b = Some vb ->
                 var_id va = var_id vb -> va = vb) ->
  lowering_reaches (initial_state impl) st ->
  get_reg_for_deref a st = Ok (ra, st1) ->
  lowering_reaches st1 st2 ->
  get_reg_for_deref b st2 = Ok (rb, st3) ->
  (ra = rb <-> canonical_identity a = canonical_identity b) /\
  (reg_index ra = reg_index rb <->
   canonical_identity a = canonical_identity b).
Proof.
  intros Wa Wb Hobj R0 Ea R1 Eb.
  destruct (lowering_reaches_table _ _ R0 (initial_state_table_inv impl))
    as (I & _).
  destruct (get_reg_for_deref_entry a st st1 ra I Ea)
    as (I1 & _ & _ & ea & Ina & Sa & Da).
  destruct (lowering_reaches_table _ _ R1 I1) as (I2 & ext2 & X2).
  destruct (get_reg_for_deref_entry b st2 st3 rb I2 Eb)
    as (I3 & _ & (ext3 & X3) & eb & Inb & Sb & Db).
  assert (Ina3 : In ea (regs_table st3)).
  { rewrite X3, X2. apply in_or_app; left. apply in_or_app; now left. }
  destruct I3 as (_ & Nshape & Nidx).
  pose proof (well_formed_shape_iff_identity a b Wa Wb Hobj) as W.
  assert (Fwd : canonical_identity a = canonical_identity b -> ra = rb).
  { intros C. apply W in C.
    assert (ea = eb).
    { apply (NoDup_map_In_inj _ _ Nshape); auto. congruence. }
    congruence. }
  assert (Bwd : reg_index ra = reg_index rb ->
                canonical_identity a = canonical_identity b).
  { intros C. apply W.
    assert (ea = eb).
    { apply (NoDup_map_In_inj _ _ Nidx); auto. congruence. }
    congruence. }
  split; split; auto.
  - intros ->. now apply Bwd.
  - intros C. now rewrite (Fwd C).
Qed.

Lemma get_reg_for_deref_shares_by_identity_witness :
  let a := sample_s_y (src_ssa (ssa_load_const 0)) in
  let b := sample_s_y (src_ssa (ssa_value 7)) in
  let st := initial_state empty_impl in
  let r := new_register a 0 in
  let h := result_value 0 (hash_deref (H := mesa_fnv32_1a) a) in
  let st1 := state_with_new_register st h a in
  (r = r <-> canonical_identity a = canonical_identity b) /\
  (reg_index r = reg_index r <->
   canonical_identity a = canonical_identity b).
Proof.
  intros a b st r h st1.
  apply (get_reg_for_deref_shares_by_identity (H := mesa_fnv32_1a)
           empty_impl st st1 st1 st1 a b r r).
  - unfold deref_well_formed; simpl. repeat split; reflexivity.
  - unfold deref_well_formed; simpl. repeat split; reflexivity.
  - simpl. intros va vb Ea Eb _. congruence.
  - apply reaches_refl.
  - vm_compute. reflexivity.
  - apply reaches_refl.
  - vm_compute. reflexivity.
Defined.

Lemma deref_chain_ok_get_variable (d : nir_deref_instr) :
  deref_chain_ok d = true ->
  exists var, nir_deref_instr_get_variable d = Some var.
Proof.
  induction d; simpl; intros C; try discriminate; eauto.
Qed.

(** On a well-formed chain without initializer the lookup returns. *)
Lemma get_reg_for_deref_returns `{fnv32_1a} (d : nir_deref_instr)
    (st : locals_to_regs_state) (var : nir_variable) :
  table_inv st ->
  deref_well_formed d ->
  nir_deref_instr_get_variable d = Some var ->
  constant_initializer var = None ->
  exists r st', get_reg_for_deref d st = Ok (r, st').
Proof.
  intros (Hok & _) (T & V) Hv Hc.
  pose proof (deref_types_ok_chain_ok d T) as C.
  destruct (hash_deref_loop_total d fnv32_1a_offset_bias C) as (h & Hh).
  assert (K : Forall (fun e => deref_chain_ok (entry_key e) = true)
                     (regs_table st)).
  { eapply Forall_impl; [|exact Hok]. intros e (A & _). exact A. }
  destruct (search_total (regs_table st) h d C K) as (res & Hs).
  unfold get_reg_for_deref, hash_deref. run_monad.
  rewrite Hh, Hv, Hc, Hs. destruct res as [e|]; [eauto|].
  rewrite V. eauto.
Qed.

(** C10. [get_reg_for_deref] asserts that the root variable of the chain
    has no constant initializer before it looks the chain up or creates a
    register: with an initializer the call is fatal in every state, and a
    call that returns had none. *)
Theorem get_reg_for_deref_requires_no_initializer `{fnv32_1a}
    (d : nir_deref_instr) (var : nir_variable) :
  deref_chain_ok d = true ->
  nir_deref_instr_get_variable d = Some var ->
  (constant_initializer var <> None ->
   forall st, get_reg_for_deref d st = Fatal Assert_constant_initializer) /\
  (forall st r st', get_reg_for_deref d st = Ok (r, st') ->
                    constant_initializer var = None).
Proof.
  intros C Hv.
  destruct (hash_deref_loop_total d fnv32_1a_offset_bias C) as (h & Hh).
  split.
  - intros Hc st. unfold get_reg_for_deref, hash_deref. run_monad.
    rewrite Hh, Hv. destruct (constant_initializer var); congruence.
  - intros st r st' E.
    destruct (get_reg_for_deref_cases d st st' r E)
      as (_ & v & _ & Hv' & Hc & _).
    congruence.
Qed.

Lemma get_reg_for_deref_requires_no_initializer_witness :
  get_reg_for_deref (H := mesa_fnv32_1a)
    (sample_init_elem (src_ssa (ssa_load_const 1)))
    (initial_state empty_impl) =
  Fatal Assert_constant_initializer.
Proof.
  destruct (get_reg_for_deref_requires_no_initializer (H := mesa_fnv32_1a)
              (sample_init_elem (src_ssa (ssa_load_const 1))) sample_var_init)
    as (A & _).
  - reflexivity.
  - reflexivity.
  - apply A. simpl. discriminate.
Defined.

(** ** Register sizing *)

Lemma u32_range (x : Z) : 0 <= u32 x < UINT32_MODULUS.
Proof. unfold u32, UINT32_MODULUS. apply Z.mod_pos_bound. lia. Qed.

Lemma u32_small (x : Z) : 0 <= x < UINT32_MODULUS -> u32 x = x.
Proof. unfold u32. apply Z.mod_small. Qed.

Lemma array_size_loop_product (d : nir_deref_instr) :
  forall acc, 0 <= acc < UINT32_MODULUS ->
              array_size_loop d acc =
              u32 (acc * fold_right Z.mul 1 (array_dimensions d)).
Proof.
  induction d; simpl; intros acc Hacc; auto;
    try (rewrite Z.mul_1_r; symmetry; now apply u32_small).
  rewrite IHd by apply u32_range.
  unfold u32. rewrite Z.mul_mod_idemp_l by (unfold UINT32_MODULUS; lia).
  f_equal. ring.
Qed.

(** C4. A register newly allocated by [get_reg_for_deref] is sized by the
    running product, started at 1, of the declared element counts at all
    array links of the whole chain, struct links in between or not; that
    product is recorded, but a product of 1, as for a chain without array
    links, is recorded as 0. *)
Theorem get_reg_for_deref_array_size `{fnv32_1a} (d : nir_deref_instr)
    (st st' : locals_to_regs_state) (r : nir_register) (h : Z) :
  hash_deref d = Ok h ->
  hash_table_search_pre_hashed (regs_table st) h d = Ok None ->
  get_reg_for_deref d st = Ok (r, st') ->
  array_size_loop d 1 = array_dimensions_product d /\
  num_array_elems r =
    (if array_dimensions_product d =? 1 then 0
     else array_dimensions_product d) /\
  (array_dimensions d = [] -> num_array_elems r = 0) /\
  (0 <= fold_right Z.mul 1 (array_dimensions d) < UINT32_MODULUS ->
   array_dimensions_product d = fold_right Z.mul 1 (array_dimensions d)).
Proof.
  intros Hh Hs E.
  assert (P : array_size_loop d 1 = array_dimensions_product d).
  { unfold array_dimensions_product.
    rewrite array_size_loop_product by (unfold UINT32_MODULUS; lia).
    f_equal. ring. }
  destruct (get_reg_for_deref_cases d st st' r E)
    as (h' & _ & Hh' & _ & _ & [(e & Hs' & _)|(_ & _ & -> & _)]).
  { rewrite Hh in Hh'. inversion Hh'; subst. rewrite Hs in Hs'.
    discriminate. }
  split; [exact P|]. simpl. rewrite P.
  pose proof (u32_range (fold_right Z.mul 1 (array_dimensions d))) as B.
  fold (array_dimensions_product d) in B.
  split; [|split].
  - destruct (Z.ltb_spec 1 (array_dimensions_product d)),
             (Z.eqb_spec (array_dimensions_product d) 1); lia.
  - intros N. unfold array_dimensions_product. rewrite N. reflexivity.
  - intros S. unfold array_dimensions_product. now apply u32_small.
Qed.

Lemma get_reg_for_deref_array_size_witness :
  let d := sample_t_a_elem (src_ssa (ssa_value 7))
                           (src_ssa (ssa_load_const 2)) in
  array_dimensions d = [4; 3] /\
  array_size_loop d 1 = 12 /\
  num_array_elems (new_register d 0) = 12.
Proof.
  intros d. split; [reflexivity|].
  pose (h := result_value 0 (hash_deref (H := mesa_fnv32_1a) d)).
  destruct (get_reg_for_deref_array_size (H := mesa_fnv32_1a) d
              (initial_state empty_impl)
              (state_with_new_register (initial_state empty_impl) h d)
              (new_register d 0) h) as (A & B & _).
  - vm_compute. reflexivity.
  - reflexivity.
  - vm_compute. reflexivity.
  - split; [exact A | exact B].
Defined.

(** ** Linearization *)

(** C3. When the register resolved for a chain has [num_array_elems] 0,
    [get_deref_reg_src] returns that register with base offset 0 and no
    indirect, whatever the index operands of the chain are. *)
Theorem get_deref_reg_src_scalar `{fnv32_1a} (d : nir_deref_instr)
    (st st1 : locals_to_regs_state) (r : nir_register) :
  get_reg_for_deref d st = Ok (r, st1) ->
  num_array_elems r = 0 ->
  get_deref_reg_src d st = Ok (mk_reg_src r 0 None, st1).
Proof.
  intros E Z0. unfold get_deref_reg_src, bind. rewrite E. simpl.
  rewrite Z0. reflexivity.
Qed.

Lemma get_deref_reg_src_scalar_witness :
  let d := sample_one_elem (src_ssa (ssa_value 7)) in
  let st := initial_state empty_impl in
  let h := result_value 0 (hash_deref (H := mesa_fnv32_1a) d) in
  get_deref_reg_src (H := mesa_fnv32_1a) d st =
  Ok (mk_reg_src (new_register d 0) 0 None, state_with_new_register st h d).
Proof.
  intros d st h.
  apply (get_deref_reg_src_scalar (H := mesa_fnv32_1a) d st
           (state_with_new_register st h d) (new_register d 0)).
  - vm_compute. reflexivity.
  - reflexivity.
Defined.

Lemma deref_reg_src_link_folded (index : nir_src) (src : nir_reg_src)
    (inner : Z) (st : locals_to_regs_state) :
  offset_folded src ->
  exists src' st',
    deref_reg_src_link index src inner st = Ok (src', st') /\
    offset_folded src' /\ reg src' = reg src /\
    regs_table st' = regs_table st /\
    impl_registers st' = impl_registers st /\
    impl_reg_alloc st' = impl_reg_alloc st /\
    progress st' = progress st.
Proof.
  unfold offset_folded, deref_reg_src_link. intros F.
  destruct src as [r bo [i|]]; simpl in *.
  - destruct F as (-> & Hssa). destruct i as [s|]; [|discriminate].
    assert (G : forall st0 : locals_to_regs_state,
              exists src' st',
                (src1 <- (assert (0 =? 0) Assert_base_offset_zero ;;;
                          ret (mk_reg_src r 0 (Some (src_ssa s)))) ;;
                 match indirect src1 with
                 | Some (src_ssa ssa) =>
                     idx <- nir_ssa_for_src index ;;
                     stride <- nir_imm_int inner ;;
                     prod <- nir_imul idx stride ;;
                     sum <- nir_iadd ssa prod ;;
                     ret (mk_reg_src (reg src1) (base_offset src1)
                                     (Some (src_ssa sum)))
                 | _ => lift (Fatal Assert_indirect_is_ssa)
                 end) st0 = Ok (src', st') /\
                match indirect src' with
                | None => True
                | Some i => base_offset src' = 0 /\ is_ssa i = true
                end /\ reg src' = r /\
                regs_table st' = regs_table st0 /\
                impl_registers st' = impl_registers st0 /\
                impl_reg_alloc st' = impl_reg_alloc st0 /\
                progress st' = progress st0).
    { intros st0. unfold nir_ssa_for_src, nir_imm_int, nir_imul, nir_iadd.
      destruct index; run_monad; eexists; eexists;
        (split; [reflexivity|]); simpl; auto 10. }
    destruct (nir_src_as_const_value index); apply G.
  - destruct (nir_src_as_const_value index) as [c|].
    + run_monad. eexists; eexists. split; [reflexivity|]. simpl. auto 10.
    + unfold nir_ssa_for_src, nir_imm_int, nir_imul, nir_iadd.
      destruct index; run_monad; eexists; eexists;
        (split; [reflexivity|]); simpl; auto 10.
Qed.

Lemma deref_reg_src_loop_folded (d : nir_deref_instr) :
  forall src inner st,
    offset_folded src ->
    (exists src' st',
       deref_reg_src_loop d src inner st = Ok (src', st') /\
       offset_folded src' /\ reg src' = reg src /\
       regs_table st' = regs_table st /\
       impl_registers st' = impl_registers st /\
       impl_reg_alloc st' = impl_reg_alloc st /\
       progress st' = progress st) /\
    Forall offset_folded (deref_reg_src_trace d src inner st) /\
    length (deref_reg_src_trace d src inner st) =
    S (length (array_dimensions d)).
Proof.
  induction d; intros src inner st F; simpl; auto;
    try (split; [eexists; eexists; split; [reflexivity|auto 10]|auto]).
  destruct (deref_reg_src_link_folded arr_index src inner st F)
    as (src1 & st1 & E1 & F1 & R1 & T1 & G1 & A1 & P1).
  unfold bind at 1. rewrite E1.
  destruct (IHd src1
              (u32 (inner * glsl_get_length (deref_glsl_type d))) st1 F1)
    as ((src2 & st2 & E2 & F2 & R2 & T2 & G2 & A2 & P2) & Tr & Len).
  split; [|split].
  - exists src2, st2. split; [exact E2|].
    repeat split; try congruence; apply F2.
  - constructor; auto.
  - simpl. now rewrite Len.
Qed.

Lemma hash_deref_loop_fatal `{fnv32_1a} (d : nir_deref_instr) :
  forall h e, hash_deref_loop h d = Fatal e ->
              e = Unreachable_invalid_deref_type.
Proof.
  induction d; simpl; intros h e E; try discriminate; eauto; congruence.
Qed.

Lemma derefs_equal_fatal (a : nir_deref_instr) :
  forall b e, derefs_equal a b = Fatal e ->
              e = Unreachable_invalid_deref_type.
Proof.
  induction a; intros b e; simpl;
    try (destruct b; simpl; intros E; try discriminate; eauto; congruence).
  destruct b; simpl; intros E; try discriminate.
  destruct (strct_index =? strct_index0); simpl in E;
    [eauto|discriminate].
Qed.

Lemma search_fatal (ht : list hash_entry) (h : Z) (k : nir_deref_instr)
    (e : fatal) :
  hash_table_search_pre_hashed ht h k = Fatal e ->
  e = Unreachable_invalid_deref_type.
Proof.
  induction ht as [|x ht IH]; simpl; intros E; [discriminate|].
  destruct (entry_hash x =? h); auto.
  destruct (derefs_equal k (entry_key x)) as [[|]|e'] eqn:Q;
    try discriminate; auto.
  inversion E; subst. eapply derefs_equal_fatal; eauto.
Qed.

(** The fatal outcomes of [get_reg_for_deref]. *)
Lemma get_reg_for_deref_fatal `{fnv32_1a} (d : nir_deref_instr)
    (st : locals_to_regs_state) (e : fatal) :
  get_reg_for_deref d st = Fatal e ->
  e = Unreachable_invalid_deref_type \/ e = Null_dereference \/
  e = Assert_constant_initializer \/ e = Assert_vector_or_scalar.
Proof.
  unfold get_reg_for_deref, hash_deref. run_monad.
  destruct (hash_deref_loop fnv32_1a_offset_bias d) as [h|e0] eqn:Hh.
  - destruct (nir_deref_instr_get_variable d) as [var|];
      [|intros E; inversion E; auto].
    destruct (constant_initializer var); [intros E; inversion E; auto|].
    destruct (hash_table_search_pre_hashed (regs_table st) h d)
      as [[x|]|e1] eqn:Hs; try discriminate.
    + destruct (glsl_type_is_vector_or_scalar (deref_glsl_type d));
        [discriminate|intros E; inversion E; auto].
    + intros E; inversion E; subst. left. eapply search_fatal; eauto.
  - intros E; inversion E; subst. left. eapply hash_deref_loop_fatal; eauto.
Qed.

(** C6. During the leaf-to-root walk of [get_deref_reg_src], once an
    indirect exists the base offset is 0 at the head of every later
    iteration and at the end; the walk always completes, and the assertion
    on the base offset never fires. *)
Theorem get_deref_reg_src_offset_folded `{fnv32_1a} (d : nir_deref_instr)
    (r : nir_register) (st : locals_to_regs_state) :
  (exists src' st',
     deref_reg_src_loop d (mk_reg_src r 0 None) 1 st = Ok (src', st') /\
     offset_folded src') /\
  Forall offset_folded (deref_reg_src_trace d (mk_reg_src r 0 None) 1 st) /\
  length (deref_reg_src_trace d (mk_reg_src r 0 None) 1 st) =
    S (length (array_dimensions d)) /\
  get_deref_reg_src d st <> Fatal Assert_base_offset_zero /\
  get_deref_reg_src d st <> Fatal Assert_indirect_is_ssa.
Proof.
  assert (F0 : offset_folded (mk_reg_src r 0 None)) by exact I.
  destruct (deref_reg_src_loop_folded d (mk_reg_src r 0 None) 1 st F0)
    as ((src' & st' & E & F & _) & Tr & Len).
  split; [eauto|]. split; [exact Tr|]. split; [exact Len|].
  assert (G : forall e, get_deref_reg_src d st = Fatal e ->
                        e <> Assert_base_offset_zero /\
                        e <> Assert_indirect_is_ssa).
  { intros e. unfold get_deref_reg_src. unfold bind at 1.
    destruct (get_reg_for_deref d st) as [[r1 st1]|e1] eqn:Q.
    - simpl. destruct (num_array_elems r1 =? 0); [discriminate|].
      assert (F1 : offset_folded (mk_reg_src r1 0 None)) by exact I.
      destruct (deref_reg_src_loop_folded d (mk_reg_src r1 0 None) 1 st1 F1)
        as ((s2 & st2 & E2 & _) & _).
      rewrite E2. discriminate.
    - intros X; inversion X; subst.
      destruct (get_reg_for_deref_fatal d st e Q) as [-> | [-> | [-> | ->]]];
        split; discriminate. }
  split; intros X; destruct (G _ X) as (A & B); congruence.
Qed.

Lemma eval_ssa_of_src (env regs : nat -> Z) (s : nir_src) :
  eval_ssa env regs (ssa_of_src s) = eval_src env regs s.
Proof. destruct s; reflexivity. Qed.

(** C2. For a local array of arrays of outer size 3 and inner size 4
    accessed at [i][2] with [i] not a constant, [get_deref_reg_src] first
    folds the constant 2 at stride 1 into the base offset, then seeds the
    indirect with that offset, resets the base offset to 0 and adds [i] at
    stride 4: the operand addresses element [i*4 + 2]. *)
Theorem get_deref_reg_src_linearizes_3x4 `{fnv32_1a}
    (m0 m1 m2 : nir_variable_mode) (elt : glsl_type) (var : nir_variable)
    (i : nir_src) (st st1 : locals_to_regs_state) (r : nir_register) :
  let d := deref_3x4 m0 m1 m2 elt var i (src_ssa (ssa_load_const 2)) in
  let sum := ssa_iadd (ssa_load_const 2)
                      (ssa_imul (ssa_of_src i) (ssa_load_const 4)) in
  nir_src_as_const_value i = None ->
  get_reg_for_deref d st = Ok (r, st1) ->
  num_array_elems r <> 0 ->
  get_deref_reg_src d st =
    Ok (mk_reg_src r 0 (Some (src_ssa sum)),
        mk_state (regs_table st1) (progress st1) (impl_registers st1)
                 (impl_reg_alloc st1)
                 (inserted st1 ++ instr_def (ssa_load_const 2)
                               :: index_instrs i 4 (ssa_load_const 2))) /\
  deref_reg_src_trace d (mk_reg_src r 0 None) 1 st1 =
    [mk_reg_src r 0 None; mk_reg_src r 2 None;
     mk_reg_src r 0 (Some (src_ssa sum))] /\
  forall env regs,
    reg_src_element env regs (mk_reg_src r 0 (Some (src_ssa sum))) =
    u32 (eval_src env regs i * 4 + 2).
Proof.
  intros d sum Hi E Hn. split; [|split].
  - unfold get_deref_reg_src. unfold bind at 1. rewrite E. simpl.
    destruct (Z.eqb_spec (num_array_elems r) 0) as [Q|_]; [contradiction|].
    unfold deref_reg_src_link, nir_ssa_for_src, nir_imm_int, nir_imul,
      nir_iadd. simpl. rewrite Hi.
    destruct i as [s|ri]; run_monad; unfold index_instrs; simpl;
      rewrite <- ?app_assoc; reflexivity.
  - simpl. unfold deref_reg_src_link, nir_ssa_for_src, nir_imm_int, nir_imul,
      nir_iadd. simpl. rewrite Hi.
    destruct i as [s|ri]; run_monad; reflexivity.
  - intros env regs. unfold reg_src_element, sum.
    cbn [base_offset indirect eval_src eval_ssa].
    rewrite eval_ssa_of_src.
    change (u32 2) with 2. change (u32 4) with 4.
    rewrite Z.add_0_l. unfold u32, UINT32_MODULUS.
    rewrite Z.mod_mod by lia.
    rewrite Z.add_mod_idemp_r by lia.
    f_equal. ring.
Qed.

Lemma get_deref_reg_src_linearizes_3x4_witness :
  let i := src_ssa (ssa_value 7) in
  let d := sample_m_elem i (src_ssa (ssa_load_const 2)) in
  let env := fun _ : nat => 2 in
  let regs := fun _ : nat => 0 in
  let r := new_register d 0 in
  num_array_elems r = 12 /\
  reg_src_element env regs
    (mk_reg_src r 0
       (Some (src_ssa (ssa_iadd (ssa_load_const 2)
                                (ssa_imul (ssa_value 7) (ssa_load_const 4))))))
  = 10.
Proof.
  intros i d env regs r. split; [reflexivity|].
  pose (h := result_value 0 (hash_deref (H := mesa_fnv32_1a) d)).
  destruct (get_deref_reg_src_linearizes_3x4 (H := mesa_fnv32_1a)
              nir_var_local nir_var_local nir_var_local float sample_var_m i
              (initial_state empty_impl)
              (state_with_new_register (initial_state empty_impl) h d) r)
    as (_ & _ & A).
  - reflexivity.
  - vm_compute. reflexivity.
  - vm_compute. discriminate.
  - etransitivity; [exact (A env regs)|reflexivity].
Defined.

(** A chain whose shape is in the table is answered from the table. *)
Lemma get_reg_for_deref_known `{fnv32_1a} (d : nir_deref_instr)
    (st : locals_to_regs_state) (e : hash_entry) (var : nir_variable) :
  table_inv st ->
  In e (regs_table st) ->
  deref_shape (entry_key e) = deref_shape d ->
  deref_chain_ok d = true ->
  nir_deref_instr_get_variable d = Some var ->
  constant_initializer var = None ->
  get_reg_for_deref d st = Ok (entry_data e, st).
Proof.
  intros (Hok & Nshape & _) Hin S C Hv Hc.
  destruct (hash_deref_loop_total d fnv32_1a_offset_bias C) as (h & Hh).
  rewrite Forall_forall in Hok.
  destruct (Hok e Hin) as (Ck & Hhe & _).
  assert (Q : hash_deref (entry_key e) = hash_deref d)
    by (apply hash_deref_loop_shape; auto).
  unfold hash_deref in Q at 2. rewrite Hhe, Hh in Q. inversion Q as [Q'].
  assert (K : Forall (fun x => deref_chain_ok (entry_key x) = true)
                     (regs_table st)).
  { apply Forall_forall. intros x Hx. apply (Hok x Hx). }
  destruct (search_total (regs_table st) h d C K) as (res & Hs).
  unfold get_reg_for_deref, hash_deref. run_monad.
  rewrite Hh, Hv, Hc, Hs. destruct res as [e'|].
  - destruct (search_found _ _ _ _ Hs) as (Hin' & _ & Heq).
    apply derefs_equal_true_iff in Heq; auto; [|apply (Hok e' Hin')].
    assert (e' = e).
    { apply (NoDup_map_In_inj _ _ Nshape); auto. congruence. }
    subst. reflexivity.
  - pose proof (search_none _ _ _ Hs e Hin Q') as F.
    apply derefs_equal_false_iff in F; auto. congruence.
Qed.

(** The access that allocates the register of a chain whose array lengths
    multiply to at most 1, and the later accesses through that chain. *)
Lemma get_deref_reg_src_allocates_scalar `{fnv32_1a}
    (impl : nir_function_impl) (d : nir_deref_instr)
    (st st' : locals_to_regs_state) (src : nir_reg_src) (h : Z) :
  lowering_reaches (initial_state impl) st ->
  array_dimensions_product d <= 1 ->
  hash_deref d = Ok h ->
  hash_table_search_pre_hashed (regs_table st) h d = Ok None ->
  get_deref_reg_src d st = Ok (src, st') ->
  src = mk_reg_src (new_register d (impl_reg_alloc st)) 0 None /\
  num_array_elems (reg src) = 0 /\
  forall st2, lowering_reaches st' st2 ->
              get_deref_reg_src d st2 = Ok (src, st2).
Proof.
  intros R0 P Hh Hs E.
  destruct (lowering_reaches_table _ _ R0 (initial_state_table_inv impl))
    as (I & _).
  assert (A : array_size_loop d 1 = array_dimensions_product d).
  { unfold array_dimensions_product.
    rewrite array_size_loop_product by (unfold UINT32_MODULUS; lia).
    f_equal. ring. }
  unfold get_deref_reg_src in E. unfold bind at 1 in E.
  destruct (get_reg_for_deref d st) as [[r st1]|] eqn:G; [|discriminate].
  destruct (get_reg_for_deref_cases d st st1 r G)
    as (h' & var & Hh' & Hv & Hc & [(e & Hs' & _)|(_ & _ & Hr & Hst)]).
  { rewrite Hh in Hh'. inversion Hh'; subst. rewrite Hs in Hs'.
    discriminate. }
  assert (Z0 : num_array_elems r = 0).
  { subst r. simpl. rewrite A.
    destruct (Z.ltb_spec 1 (array_dimensions_product d)); [lia|reflexivity]. }
  simpl in E. rewrite Z0 in E. simpl in E. inversion E; subst src st'.
  split; [now rewrite Hr|]. split; [exact Z0|].
  intros st2 R1.
  destruct (get_reg_for_deref_entry d st st1 r I G)
    as (I1 & C & _ & e & Hin & S & D).
  destruct (lowering_reaches_table _ _ R1 I1) as (I2 & ext & X).
  assert (Hin2 : In e (regs_table st2))
    by (rewrite X; apply in_or_app; now left).
  pose proof (get_reg_for_deref_known d st2 e var I2 Hin2 S C Hv Hc) as G2.
  unfold get_deref_reg_src. unfold bind at 1. rewrite G2, D. simpl.
  rewrite Z0. reflexivity.
Qed.

(** ** Rewriting blocks *)

Lemma lower_instr_untouched `{fnv32_1a} (i : nir_instr)
    (st : locals_to_regs_state) :
  instr_untouched i = true ->
  lower_locals_to_regs_instr i st = Ok ([i], st).
Proof.
  destruct i as [| | |[d n dst|d v m|dst src|op]|]; simpl; intros U;
    try reflexivity; try discriminate; now rewrite U.
Qed.

Lemma lower_instrs_cons `{fnv32_1a} (i : nir_instr) (l : list nir_instr)
    (st : locals_to_regs_state) :
  lower_locals_to_regs_instrs (i :: l) st =
  match lower_locals_to_regs_instr i st with
  | Fatal e => Fatal e
  | Ok (o, st0) =>
      match lower_locals_to_regs_instrs l st0 with
      | Fatal e => Fatal e
      | Ok (o1, st1) => Ok (o ++ o1, st1)
      end
  end.
Proof.
  simpl. unfold bind, ret.
  destruct (lower_locals_to_regs_instr i st) as [[o st0]|]; [|reflexivity].
  destruct (lower_locals_to_regs_instrs l st0) as [[o1 st1]|]; reflexivity.
Qed.

Lemma lower_instrs_untouched `{fnv32_1a} (l : list nir_instr) :
  forall st, forallb instr_untouched l = true ->
             lower_locals_to_regs_instrs l st = Ok (l, st).
Proof.
  induction l as [|i l IH]; intros st U; [reflexivity|].
  simpl in U. apply andb_true_iff in U. destruct U as (Ui & Ul).
  rewrite lower_instrs_cons, (lower_instr_untouched i st Ui), (IH st Ul).
  reflexivity.
Qed.

Lemma lower_instrs_app `{fnv32_1a} (l1 l2 : list nir_instr) :
  forall st,
    lower_locals_to_regs_instrs (l1 ++ l2) st =
    match lower_locals_to_regs_instrs l1 st with
    | Fatal e => Fatal e
    | Ok (o1, st1) =>
        match lower_locals_to_regs_instrs l2 st1 with
        | Fatal e => Fatal e
        | Ok (o2, st2) => Ok (o1 ++ o2, st2)
        end
    end.
Proof.
  induction l1 as [|i l1 IH]; intros st.
  - simpl. unfold ret.
    destruct (lower_locals_to_regs_instrs l2 st) as [[o2 st2]|];
      reflexivity.
  - rewrite <- app_comm_cons, !lower_instrs_cons.
    destruct (lower_locals_to_regs_instr i st) as [[o st0]|]; [|reflexivity].
    rewrite IH.
    destruct (lower_locals_to_regs_instrs l1 st0) as [[o1 st1]|];
      [|reflexivity].
    destruct (lower_locals_to_regs_instrs l2 st1) as [[o2 st2]|];
      [|reflexivity].
    now rewrite app_assoc.
Qed.

Lemma lower_blocks_fatal `{fnv32_1a} (bs : list nir_block)
    (block : nir_block) :
  In block bs ->
  (forall st, exists e, lower_locals_to_regs_block block st = Fatal e) ->
  forall st, exists e, lower_locals_to_regs_blocks bs st = Fatal e.
Proof.
  intros Hin F. induction bs as [|b bs IH]; [contradiction|].
  intros st. simpl. unfold bind at 1.
  destruct Hin as [->|Hin].
  - destruct (F st) as (e & ->). eauto.
  - destruct (lower_locals_to_regs_block b st) as [[b' st']|e]; [|eauto].
    unfold bind at 1. destruct (IH Hin st') as (e & ->). eauto.
Qed.

(** C7. A copy between two dereference chains met while a block is
    rewritten is fatal: the block, and with it the pass over the function,
    aborts with the unreachable of the copy case once the instructions in
    front of it are done; nothing is rewritten or skipped instead. *)
Theorem lower_locals_to_regs_block_copy_fatal `{fnv32_1a}
    (block : nir_block) (dst src : nir_deref_instr)
    (pre post : list nir_instr) :
  instr_list block = pre ++ instr_intrinsic (copy_deref dst src) :: post ->
  (forall st, exists e, lower_locals_to_regs_block block st = Fatal e) /\
  (forall st out st1,
     lower_locals_to_regs_instrs pre st = Ok (out, st1) ->
     lower_locals_to_regs_block block st = Fatal Unreachable_copy) /\
  (forall impl, In block (blocks impl) ->
                exists e, nir_lower_locals_to_regs_impl impl = Fatal e).
Proof.
  intros L.
  assert (A : forall st out st1,
             lower_locals_to_regs_instrs pre st = Ok (out, st1) ->
             lower_locals_to_regs_block block st = Fatal Unreachable_copy).
  { intros st out st1 E. unfold lower_locals_to_regs_block.
    unfold bind at 1. rewrite L, lower_instrs_app, E. reflexivity. }
  assert (B : forall st, exists e,
               lower_locals_to_regs_block block st = Fatal e).
  { intros st.
    destruct (lower_locals_to_regs_instrs pre st) as [[out st1]|e] eqn:E.
    - rewrite (A st out st1 E). eauto.
    - unfold lower_locals_to_regs_block. unfold bind at 1.
      rewrite L, lower_instrs_app, E. eauto. }
  split; [exact B|]. split; [exact A|].
  intros impl Hin. unfold nir_lower_locals_to_regs_impl.
  destruct (lower_blocks_fatal (blocks (nir_metadata_require_dominance impl))
              block Hin B
              (mk_state [] false (registers impl) (reg_alloc impl) []))
    as (e & ->).
  eauto.
Qed.

Lemma lower_locals_to_regs_block_copy_fatal_witness :
  lower_locals_to_regs_block (H := mesa_fnv32_1a) sample_copy_block
    (initial_state empty_impl) = Fatal Unreachable_copy.
Proof.
  destruct (lower_locals_to_regs_block_copy_fatal (H := mesa_fnv32_1a)
              sample_copy_block
              (sample_l_elem (src_ssa (ssa_load_const 0)))
              (sample_l_elem (src_ssa (ssa_load_const 1)))
              [instr_intrinsic
                 (store_deref (sample_l_elem (src_ssa (ssa_load_const 1)))
                              (src_ssa (ssa_value 3)) 15)]
              [instr_other 0] eq_refl) as (_ & A & _).
  eapply A. vm_compute. reflexivity.
Defined.

(** What the builder inserts is never rewritten itself. *)
Lemma deref_reg_src_link_inserted (index : nir_src) (src src' : nir_reg_src)
    (inner : Z) (st st' : locals_to_regs_state) :
  deref_reg_src_link index src inner st = Ok (src', st') ->
  exists new, inserted st' = inserted st ++ new /\
              forallb instr_untouched new = true.
Proof.
  unfold deref_reg_src_link, nir_ssa_for_src, nir_imm_int, nir_imul, nir_iadd.
  destruct src as [r bo ind].
  destruct (nir_src_as_const_value index) as [c|], ind as [[s|ri]|];
    run_monad;
    try (destruct (bo =? 0); [|discriminate]);
    try discriminate;
    try (destruct index; simpl);
    intros E; inversion E; subst; simpl;
    rewrite <- ?app_assoc; simpl;
    try (eexists; split; [reflexivity|reflexivity]);
    exists []; now rewrite app_nil_r.
Qed.

Lemma deref_reg_src_loop_inserted (d : nir_deref_instr) :
  forall src src' inner st st',
    deref_reg_src_loop d src inner st = Ok (src', st') ->
    exists new, inserted st' = inserted st ++ new /\
                forallb instr_untouched new = true.
Proof.
  induction d; intros src src' inner st st' E; simpl in E; eauto;
    try (inversion E; subst; exists []; now rewrite app_nil_r).
  unfold bind at 1 in E.
  destruct (deref_reg_src_link arr_index src inner st)
    as [[src1 st1]|] eqn:L; [|discriminate].
  destruct (deref_reg_src_link_inserted _ _ _ _ _ _ L) as (n1 & X1 & U1).
  destruct (IHd _ _ _ _ _ E) as (n2 & X2 & U2).
  exists (n1 ++ n2). rewrite X2, X1, app_assoc. split; [reflexivity|].
  rewrite forallb_app, U1, U2. reflexivity.
Qed.

Lemma get_deref_reg_src_inserted `{fnv32_1a} (d : nir_deref_instr)
    (src : nir_reg_src) (st st' : locals_to_regs_state) :
  get_deref_reg_src d st = Ok (src, st') ->
  exists new, inserted st' = inserted st ++ new /\
              forallb instr_untouched new = true.
Proof.
  unfold get_deref_reg_src. unfold bind at 1.
  destruct (get_reg_for_deref d st) as [[r st1]|] eqn:G; [|discriminate].
  assert (X : inserted st1 = inserted st).
  { destruct (get_reg_for_deref_cases d st st1 r G)
      as (h & v & Hh & Hv & Hc & [(e & Hs & Hr & ->)|(Hs & Hvec & Hr & ->)]);
      reflexivity. }
  simpl. destruct (num_array_elems r =? 0).
  - intros E; inversion E; subst. exists []. now rewrite app_nil_r.
  - intros E. rewrite <- X. eapply deref_reg_src_loop_inserted; eauto.
Qed.

Lemma lower_instr_output `{fnv32_1a} (i : nir_instr) (out : list nir_instr)
    (st st' : locals_to_regs_state) :
  lower_locals_to_regs_instr i st = Ok (out, st') ->
  forallb instr_untouched out = true.
Proof.
  destruct i as [a|s|d|[d n dst|d v m|dst src|op]|t]; simpl;
    try (intros E; inversion E; subst; reflexivity);
    try discriminate.
  - destruct (nir_variable_mode_eqb (deref_mode d) nir_var_local) eqn:Q;
      simpl.
    + unfold bind at 1. unfold set_cursor_before_instr at 1. run_monad.
      match goal with
      | |- context [get_deref_reg_src d ?s] =>
          destruct (get_deref_reg_src d s) as [[rs st1]|] eqn:G;
          [|discriminate]
      end.
      destruct (get_deref_reg_src_inserted _ _ _ _ G) as (new & Hins & U).
      cbn [inserted app] in Hins. intros E; inversion E; subst.
      rewrite forallb_app, U. reflexivity.
    + intros E; inversion E; subst. simpl. now rewrite Q.
  - destruct (nir_variable_mode_eqb (deref_mode d) nir_var_local) eqn:Q;
      simpl.
    + unfold bind at 1. unfold set_cursor_before_instr at 1. run_monad.
      match goal with
      | |- context [get_deref_reg_src d ?s] =>
          destruct (get_deref_reg_src d s) as [[rs st1]|] eqn:G;
          [|discriminate]
      end.
      destruct (get_deref_reg_src_inserted _ _ _ _ G) as (new & Hins & U).
      cbn [inserted app] in Hins. intros E; inversion E; subst.
      rewrite forallb_app, U. reflexivity.
    + intros E; inversion E; subst. simpl. now rewrite Q.
Qed.

Lemma lower_instrs_output `{fnv32_1a} (l : list nir_instr) :
  forall out st st',
    lower_locals_to_regs_instrs l st = Ok (out, st') ->
    forallb instr_untouched out = true.
Proof.
  induction l as [|i l IH]; intros out st st' E.
  - inversion E; subst. reflexivity.
  - rewrite lower_instrs_cons in E.
    destruct (lower_locals_to_regs_instr i st) as [[o st0]|] eqn:Ei;
      [|discriminate].
    destruct (lower_locals_to_regs_instrs l st0) as [[o1 st1]|] eqn:El;
      [|discriminate].
    inversion E; subst. rewrite forallb_app.
    rewrite (lower_instr_output _ _ _ _ Ei), (IH _ _ _ El). reflexivity.
Qed.

Lemma lower_blocks_cons `{fnv32_1a} (b : nir_block) (bs : list nir_block)
    (st : locals_to_regs_state) :
  lower_locals_to_regs_blocks (b :: bs) st =
  match lower_locals_to_regs_instrs (instr_list b) st with
  | Fatal e => Fatal e
  | Ok (instrs, st0) =>
      match lower_locals_to_regs_blocks bs st0 with
      | Fatal e => Fatal e
      | Ok (bs', st1) =>
          Ok (mk_block (block_id b) instrs (successors b) (predecessors b)
                :: bs', st1)
      end
  end.
Proof.
  simpl. unfold lower_locals_to_regs_block, bind, ret.
  destruct (lower_locals_to_regs_instrs (instr_list b) st) as [[o st0]|];
    [|reflexivity].
  destruct (lower_locals_to_regs_blocks bs st0) as [[bs' st1]|]; reflexivity.
Qed.

(** The blocks the pass returns keep identity and edges, and hold only
    instructions the pass leaves in place. *)
Lemma lower_blocks_output `{fnv32_1a} (bs : list nir_block) :
  forall bs' st st',
    lower_locals_to_regs_blocks bs st = Ok (bs', st') ->
    map block_shape bs' = map block_shape bs /\
    forallb block_untouched bs' = true.
Proof.
  induction bs as [|b bs IH]; intros bs' st st' E.
  - inversion E; subst. auto.
  - rewrite lower_blocks_cons in E.
    destruct (lower_locals_to_regs_instrs (instr_list b) st)
      as [[o st0]|] eqn:Ei; [|discriminate].
    destruct (lower_locals_to_regs_blocks bs st0) as [[bs1 st1]|] eqn:Eb;
      [|discriminate].
    inversion E; subst. destruct (IH _ _ _ Eb) as (S1 & U1).
    simpl. rewrite S1, U1. unfold block_untouched at 1. simpl.
    rewrite (lower_instrs_output _ _ _ _ Ei). auto.
Qed.

Lemma lower_blocks_untouched `{fnv32_1a} (bs : list nir_block) :
  forall st, forallb block_untouched bs = true ->
             lower_locals_to_regs_blocks bs st = Ok (bs, st).
Proof.
  induction bs as [|b bs IH]; intros st U; [reflexivity|].
  simpl in U. apply andb_true_iff in U. destruct U as (Ub & Ubs).
  rewrite lower_blocks_cons, (lower_instrs_untouched _ st Ub), (IH st Ubs).
  destruct b; reflexivity.
Qed.

Lemma untouched_not_local_load_store (i : nir_instr) :
  instr_untouched i = true -> is_local_load_store i = false.
Proof.
  destruct i as [| | |[d n dst|d v m|dst src|op]|]; simpl; auto;
    intros U; now apply negb_true_iff in U.
Qed.

(** C8. When the pass has run over a function, the blocks are the same in
    number, identity and order, and every block has the successors and
    predecessors it had: only the instructions inside blocks change. *)
Theorem nir_lower_locals_to_regs_impl_preserves_cfg `{fnv32_1a}
    (impl impl' : nir_function_impl) (p : bool) :
  nir_lower_locals_to_regs_impl impl = Ok (p, impl') ->
  length (blocks impl') = length (blocks impl) /\
  cfg_shape impl' = cfg_shape impl.
Proof.
  unfold nir_lower_locals_to_regs_impl. simpl.
  destruct (lower_locals_to_regs_blocks (blocks impl)
              (mk_state [] false (registers impl) (reg_alloc impl) []))
    as [[bs' st']|] eqn:E; [|discriminate].
  intros Q; inversion Q; subst. simpl.
  destruct (lower_blocks_output _ _ _ _ E) as (S1 & _).
  split.
  - rewrite <- (length_map block_shape bs'), S1. apply length_map.
  - exact S1.
Qed.

Lemma nir_lower_locals_to_regs_impl_preserves_cfg_witness :
  let res := result_value (false, empty_impl)
               (nir_lower_locals_to_regs_impl (H := mesa_fnv32_1a)
                  sample_impl) in
  fst res = true /\
  length (blocks (snd res)) = 2%nat /\
  cfg_shape (snd res) = [(0, [1], []); (1, [], [0])]%nat.
Proof.
  intros res. split; [reflexivity|].
  apply (nir_lower_locals_to_regs_impl_preserves_cfg (H := mesa_fnv32_1a)
           sample_impl (snd res) (fst res)).
  vm_compute. reflexivity.
Defined.

(** C5. After one application of the pass to a function no load or store
    of local storage remains in any block, and a second application
    rewrites nothing: it returns progress false and the function as it
    got it. *)
Theorem nir_lower_locals_to_regs_impl_idempotent `{fnv32_1a}
    (impl impl' : nir_function_impl) (p : bool) :
  nir_lower_locals_to_regs_impl impl = Ok (p, impl') ->
  Forall (fun b => Forall (fun i => is_local_load_store i = false)
                          (instr_list b)) (blocks impl') /\
  nir_lower_locals_to_regs_impl impl' = Ok (false, impl').
Proof.
  unfold nir_lower_locals_to_regs_impl at 1. simpl.
  destruct (lower_locals_to_regs_blocks (blocks impl)
              (mk_state [] false (registers impl) (reg_alloc impl) []))
    as [[bs' st']|] eqn:E; [|discriminate].
  intros Q; inversion Q; subst. simpl.
  destruct (lower_blocks_output _ _ _ _ E) as (_ & U).
  split.
  - apply Forall_forall. intros b Hb. apply Forall_forall. intros i Hi.
    apply untouched_not_local_load_store.
    rewrite forallb_forall in U. specialize (U b Hb).
    unfold block_untouched in U. rewrite forallb_forall in U. auto.
  - unfold nir_lower_locals_to_regs_impl. simpl.
    rewrite (lower_blocks_untouched bs' _ U). reflexivity.
Qed.

Lemma nir_lower_locals_to_regs_impl_idempotent_witness :
  let res := result_value (false, empty_impl)
               (nir_lower_locals_to_regs_impl (H := mesa_fnv32_1a)
                  sample_impl) in
  fst res = true /\
  nir_lower_locals_to_regs_impl (H := mesa_fnv32_1a) (snd res) =
  Ok (false, snd res).
Proof.
  intros res. split; [reflexivity|].
  apply (nir_lower_locals_to_regs_impl_idempotent (H := mesa_fnv32_1a)
           sample_impl (snd res) (fst res)).
  vm_compute. reflexivity.
Defined.

(** ** The pass returns on the input it is meant for *)

Lemma table_inv_same_table `{fnv32_1a} (st st' : locals_to_regs_state) :
  regs_table st' = regs_table st ->
  impl_reg_alloc st' = impl_reg_alloc st ->
  table_inv st -> table_inv st'.
Proof.
  unfold table_inv, entry_ok. intros -> ->. auto.
Qed.

Lemma nir_variable_mode_eqb_eq (a b : nir_variable_mode) :
  nir_variable_mode_eqb a b = true <-> a = b.
Proof. destruct a, b; simpl; split; congruence. Qed.

Lemma get_deref_reg_src_returns `{fnv32_1a} (d : nir_deref_instr)
    (st : locals_to_regs_state) :
  table_inv st -> deref_lowerable d ->
  exists src st', get_deref_reg_src d st = Ok (src, st') /\ table_inv st'.
Proof.
  intros I (W & var & Hv & Hc).
  destruct (get_reg_for_deref_returns d st var I W Hv Hc) as (r & st1 & G).
  destruct (get_reg_for_deref_entry d st st1 r I G) as (I1 & _).
  unfold get_deref_reg_src. unfold bind at 1. rewrite G. simpl.
  destruct (num_array_elems r =? 0);
    [eexists; eexists; split; [reflexivity|exact I1]|].
  assert (F : offset_folded (mk_reg_src r 0 None)) by exact Logic.I.
  destruct (deref_reg_src_loop_folded d (mk_reg_src r 0 None) 1 st1 F)
    as ((src & st2 & E & _ & _ & T & _ & A & _) & _).
  exists src, st2. split; [exact E|].
  eapply table_inv_same_table; eauto.
Qed.

Lemma lower_instr_returns `{fnv32_1a} (i : nir_instr)
    (st : locals_to_regs_state) :
  table_inv st -> instr_lowerable i ->
  exists out st', lower_locals_to_regs_instr i st = Ok (out, st') /\
                  table_inv st'.
Proof.
  intros I L.
  destruct i as [a|s|d|[d n dst|d v m|dst src|op]|t]; simpl in *;
    try contradiction;
    try (exists [instr_alu a], st; split; [reflexivity|exact I]);
    try (exists [instr_def s], st; split; [reflexivity|exact I]);
    try (exists [instr_deref d], st; split; [reflexivity|exact I]);
    try (exists [instr_intrinsic (other_intrinsic op)], st;
         split; [reflexivity|exact I]);
    try (exists [instr_other t], st; split; [reflexivity|exact I]).
  - destruct (nir_variable_mode_eqb (deref_mode d) nir_var_local) eqn:Q;
      simpl; [|eexists; eexists; split; [reflexivity|exact I]].
    apply nir_variable_mode_eqb_eq in Q. specialize (L Q).
    unfold bind at 1. unfold set_cursor_before_instr at 1. run_monad.
    match goal with
    | |- context [get_deref_reg_src d ?s] =>
        destruct (get_deref_reg_src_returns d s) as (rs & st1 & G & I1);
        [exact I|exact L|rewrite G]
    end.
    eexists; eexists. split; [reflexivity|exact I1].
  - destruct (nir_variable_mode_eqb (deref_mode d) nir_var_local) eqn:Q;
      simpl; [|eexists; eexists; split; [reflexivity|exact I]].
    apply nir_variable_mode_eqb_eq in Q. specialize (L Q).
    unfold bind at 1. unfold set_cursor_before_instr at 1. run_monad.
    match goal with
    | |- context [get_deref_reg_src d ?s] =>
        destruct (get_deref_reg_src_returns d s) as (rs & st1 & G & I1);
        [exact I|exact L|rewrite G]
    end.
    eexists; eexists. split; [reflexivity|exact I1].
Qed.

Lemma lower_instrs_returns `{fnv32_1a} (l : list nir_instr) :
  forall st, table_inv st -> Forall instr_lowerable l ->
             exists out st', lower_locals_to_regs_instrs l st = Ok (out, st')
                             /\ table_inv st'.
Proof.
  induction l as [|i l IH]; intros st I L.
  - exists [], st. split; [reflexivity|exact I].
  - inversion L as [|? ? Li Ll]; subst. rewrite lower_instrs_cons.
    destruct (lower_instr_returns i st I Li) as (o & st0 & -> & I0).
    destruct (IH st0 I0 Ll) as (o1 & st1 & -> & I1). eauto.
Qed.

Lemma lower_blocks_returns `{fnv32_1a} (bs : list nir_block) :
  forall st, table_inv st ->
             Forall (fun b => Forall instr_lowerable (instr_list b)) bs ->
             exists bs' st', lower_locals_to_regs_blocks bs st = Ok (bs', st')
                             /\ table_inv st'.
Proof.
  induction bs as [|b bs IH]; intros st I L.
  - exists [], st. split; [reflexivity|exact I].
  - inversion L as [|? ? Lb Lbs]; subst. rewrite lower_blocks_cons.
    destruct (lower_instrs_returns (instr_list b) st I Lb)
      as (o & st0 & -> & I0).
    destruct (IH st0 I0 Lbs) as (bs1 & st1 & -> & I1). eauto.
Qed.

(** On such input the pass over a function runs to its end. *)
Lemma nir_lower_locals_to_regs_impl_returns `{fnv32_1a}
    (impl : nir_function_impl) :
  impl_lowerable impl ->
  exists p impl', nir_lower_locals_to_regs_impl impl = Ok (p, impl').
Proof.
  intros L. unfold nir_lower_locals_to_regs_impl. simpl.
  destruct (lower_blocks_returns (blocks impl)
              (mk_state [] false (registers impl) (reg_alloc impl) [])
              (initial_state_table_inv impl) L) as (bs' & st' & -> & _).
  eauto.
Qed.

(** ** The states of the pass are states of one lowering *)

Lemma lowering_reaches_trans `{fnv32_1a} (a b c : locals_to_regs_state) :
  lowering_reaches a b -> lowering_reaches b c -> lowering_reaches a c.
Proof.
  induction 1; intros R; auto.
  - eapply reaches_lookup; eauto.
  - eapply reaches_builder; eauto.
Qed.

Lemma lowering_reaches_same_table `{fnv32_1a}
    (st st' : locals_to_regs_state) :
  regs_table st' = regs_table st ->
  impl_registers st' = impl_registers st ->
  impl_reg_alloc st' = impl_reg_alloc st ->
  lowering_reaches st st'.
Proof.
  destruct st' as [t p rs n ins]; simpl; intros -> -> ->.
  apply (reaches_builder st p ins). apply reaches_refl.
Qed.

Lemma get_deref_reg_src_reaches `{fnv32_1a} (d : nir_deref_instr)
    (src : nir_reg_src) (st st' : locals_to_regs_state) :
  get_deref_reg_src d st = Ok (src, st') -> lowering_reaches st st'.
Proof.
  unfold get_deref_reg_src. unfold bind at 1.
  destruct (get_reg_for_deref d st) as [[r st1]|] eqn:G; [|discriminate].
  simpl. destruct (num_array_elems r =? 0).
  - intros E; inversion E; subst.
    eapply reaches_lookup; [exact G|apply reaches_refl].
  - intros E.
    assert (F : offset_folded (mk_reg_src r 0 None)) by exact I.
    destruct (deref_reg_src_loop_folded d (mk_reg_src r 0 None) 1 st1 F)
      as ((src2 & st2 & E2 & _ & _ & T & Rg & A & _) & _).
    rewrite E2 in E. inversion E; subst.
    eapply reaches_lookup; [exact G|].
    now apply lowering_reaches_same_table.
Qed.

Lemma lower_instr_reaches `{fnv32_1a} (i : nir_instr)
    (out : list nir_instr) (st st' : locals_to_regs_state) :
  lower_locals_to_regs_instr i st = Ok (out, st') -> lowering_reaches st st'.
Proof.
  destruct i as [a|s|d|[d n dst|d v m|dst src|op]|t]; simpl;
    try (intros E; inversion E; subst; apply reaches_refl);
    try discriminate.
  - destruct (nir_variable_mode_eqb (deref_mode d) nir_var_local); simpl;
      [|intros E; inversion E; subst; apply reaches_refl].
    unfold bind at 1. unfold set_cursor_before_instr at 1. run_monad.
    match goal with
    | |- context [get_deref_reg_src d ?s] =>
        destruct (get_deref_reg_src d s) as [[rs st1]|] eqn:G;
        [|discriminate]
    end.
    intros E; inversion E; subst.
    eapply reaches_builder. eapply lowering_reaches_trans.
    + eapply get_deref_reg_src_reaches. exact G.
    + now apply lowering_reaches_same_table.
  - destruct (nir_variable_mode_eqb (deref_mode d) nir_var_local); simpl;
      [|intros E; inversion E; subst; apply reaches_refl].
    unfold bind at 1. unfold set_cursor_before_instr at 1. run_monad.
    match goal with
    | |- context [get_deref_reg_src d ?s] =>
        destruct (get_deref_reg_src d s) as [[rs st1]|] eqn:G;
        [|discriminate]
    end.
    intros E; inversion E; subst.
    eapply reaches_builder. eapply lowering_reaches_trans.
    + eapply get_deref_reg_src_reaches. exact G.
    + now apply lowering_reaches_same_table.
Qed.

Lemma lower_instrs_reaches `{fnv32_1a} (l : list nir_instr) :
  forall out st st',
    lower_locals_to_regs_instrs l st = Ok (out, st') ->
    lowering_reaches st st'.
Proof.
  induction l as [|i l IH]; intros out st st' E.
  - inversion E; subst. apply reaches_refl.
  - rewrite lower_instrs_cons in E.
    destruct (lower_locals_to_regs_instr i st) as [[o st0]|] eqn:Ei;
      [|discriminate].
    destruct (lower_locals_to_regs_instrs l st0) as [[o1 st1]|] eqn:El;
      [|discriminate].
    inversion E; subst. eapply lowering_reaches_trans.
    + eapply lower_instr_reaches; eauto.
    + eapply IH; eauto.
Qed.

(** * Further properties of the code *)

(** ** hash_deref and derefs_equal *)

Lemma derefs_equal_true_chain_ok (a : nir_deref_instr) :
  forall b, derefs_equal a b = Ok true ->
            deref_chain_ok a = true /\ deref_chain_ok b = true.
Proof.
  induction a; intros b; destruct b; simpl; intros E;
    try discriminate; auto.
  destruct (strct_index =? strct_index0); simpl in E;
    [auto|discriminate].
Qed.

Lemma derefs_equal_sym (a : nir_deref_instr) :
  forall b, derefs_equal a b = derefs_equal b a.
Proof.
  induction a; intros b; destruct b; simpl; auto.
  - now rewrite Nat.eqb_sym.
  - rewrite (Z.eqb_sym strct_index strct_index0).
    destruct (strct_index0 =? strct_index); simpl; auto.
Qed.

(** X1. The hash agrees with the equality, as a hash table needs it: two
    dereferences [derefs_equal] accepts have the same [hash_deref]. *)
Theorem derefs_equal_same_hash `{fnv32_1a} (a b : nir_deref_instr) :
  derefs_equal a b = Ok true -> hash_deref a = hash_deref b.
Proof.
  intros E. destruct (derefs_equal_true_chain_ok a b E) as (Ca & Cb).
  apply hash_deref_loop_shape; auto. now apply derefs_equal_true_iff.
Qed.

Lemma derefs_equal_same_hash_witness :
  hash_deref (H := mesa_fnv32_1a) (sample_s_y (src_ssa (ssa_load_const 0))) =
  hash_deref (H := mesa_fnv32_1a) (sample_s_y (src_reg 3)).
Proof.
  apply (derefs_equal_same_hash (H := mesa_fnv32_1a)
           (sample_s_y (src_ssa (ssa_load_const 0)))
           (sample_s_y (src_reg 3))).
  reflexivity.
Defined.

(** X2. [derefs_equal] is symmetric on all dereferences, transitive where
    it answers true, and reflexive on chains of array and struct links
    above a variable. *)
Theorem derefs_equal_equivalence (a b c : nir_deref_instr) :
  derefs_equal a b = derefs_equal b a /\
  (derefs_equal a b = Ok true -> derefs_equal b c = Ok true ->
   derefs_equal a c = Ok true) /\
  (deref_chain_ok a = true -> derefs_equal a a = Ok true).
Proof.
  split; [apply derefs_equal_sym|]. split.
  - intros E1 E2.
    destruct (derefs_equal_true_chain_ok a b E1) as (Ca & Cb).
    destruct (derefs_equal_true_chain_ok b c E2) as (_ & Cc).
    apply derefs_equal_true_iff; auto.
    apply derefs_equal_true_iff in E1; auto.
    apply derefs_equal_true_iff in E2; auto. congruence.
  - intros Ca. now apply derefs_equal_true_iff.
Qed.

Lemma map_array_indices_chain_ok (f : nir_src -> nir_src)
    (d : nir_deref_instr) :
  deref_chain_ok (map_array_indices f d) = deref_chain_ok d.
Proof. induction d; simpl; auto. Qed.

Lemma map_array_indices_shape (f : nir_src -> nir_src)
    (d : nir_deref_instr) :
  deref_chain_ok d = true ->
  deref_shape (map_array_indices f d) = deref_shape d.
Proof.
  unfold deref_shape, deref_root_id.
  induction d; simpl; intros C; try discriminate; auto;
    specialize (IHd C); inversion IHd; congruence.
Qed.

(** X3. At an array link the offset, and whether it is direct or
    indirect, is ignored by both functions: changing the index operands of
    a chain changes neither its hash nor what it is equal to. *)
Theorem array_indices_ignored `{fnv32_1a} (f : nir_src -> nir_src)
    (d : nir_deref_instr) :
  deref_chain_ok d = true ->
  derefs_equal d (map_array_indices f d) = Ok true /\
  hash_deref (map_array_indices f d) = hash_deref d /\
  forall b, derefs_equal (map_array_indices f d) b = derefs_equal d b.
Proof.
  intros C.
  pose proof (map_array_indices_shape f d C) as S.
  assert (C' : deref_chain_ok (map_array_indices f d) = true)
    by now rewrite map_array_indices_chain_ok.
  split; [apply derefs_equal_true_iff; auto|].
  split; [apply hash_deref_loop_shape; auto|].
  clear S C'. induction d; simpl in C; try discriminate; intros b;
    destruct b; simpl; auto.
  destruct (strct_index =? strct_index0); simpl; auto.
Qed.

Lemma array_indices_ignored_witness :
  derefs_equal (sample_m_elem (src_ssa (ssa_value 7))
                              (src_ssa (ssa_load_const 2)))
               (sample_m_elem (src_reg 0) (src_reg 0)) = Ok true.
Proof.
  destruct (array_indices_ignored (H := mesa_fnv32_1a)
              (fun _ => src_reg 0)
              (sample_m_elem (src_ssa (ssa_value 7))
                             (src_ssa (ssa_load_const 2))))
    as (A & _).
  - reflexivity.
  - exact A.
Defined.

Lemma hash_deref_loop_invalid `{fnv32_1a} (d : nir_deref_instr) :
  forall h, deref_chain_ok d = false ->
            hash_deref_loop h d = Fatal Unreachable_invalid_deref_type.
Proof.
  induction d; simpl; intros h C; try discriminate; auto.
Qed.

(** X4. A chain with a node that is neither a variable, an array link nor
    a struct link (a wildcard or a cast) makes [hash_deref] fatal with
    "Invalid deref type", and with it [get_reg_for_deref] and
    [get_deref_reg_src] in every state, before the initializer is looked
    at; all other chains hash to a value. *)
Theorem invalid_deref_type_fatal `{fnv32_1a} (d : nir_deref_instr) :
  (deref_chain_ok d = true -> exists h, hash_deref d = Ok h) /\
  (deref_chain_ok d = false ->
   hash_deref d = Fatal Unreachable_invalid_deref_type /\
   forall st,
     get_reg_for_deref d st = Fatal Unreachable_invalid_deref_type /\
     get_deref_reg_src d st = Fatal Unreachable_invalid_deref_type).
Proof.
  split.
  - intros C. apply hash_deref_loop_total; auto.
  - intros C.
    pose proof (hash_deref_loop_invalid d fnv32_1a_offset_bias C) as Hh.
    split; [exact Hh|]. intros st.
    assert (G : get_reg_for_deref d st =
                Fatal Unreachable_invalid_deref_type).
    { unfold get_reg_for_deref, hash_deref. unfold bind at 1, lift at 1.
      now rewrite Hh. }
    split; [exact G|].
    unfold get_deref_reg_src. unfold bind at 1. now rewrite G.
Qed.

Lemma invalid_deref_type_fatal_witness :
  get_deref_reg_src (H := mesa_fnv32_1a) sample_wildcard
                    (initial_state empty_impl) =
  Fatal Unreachable_invalid_deref_type.
Proof.
  destruct (invalid_deref_type_fatal (H := mesa_fnv32_1a) sample_wildcard)
    as (_ & A).
  destruct (A eq_refl) as (_ & B).
  exact (proj2 (B (initial_state empty_impl))).
Defined.

(** ** What the linearization computes *)

Lemma u32_idem (x : Z) : u32 (u32 x) = u32 x.
Proof. unfold u32, UINT32_MODULUS. apply Z.mod_mod. lia. Qed.

Lemma u32_add_l (a b : Z) : u32 (u32 a + b) = u32 (a + b).
Proof. unfold u32, UINT32_MODULUS. apply Z.add_mod_idemp_l. lia. Qed.

Lemma u32_add_r (a b : Z) : u32 (a + u32 b) = u32 (a + b).
Proof. unfold u32, UINT32_MODULUS. apply Z.add_mod_idemp_r. lia. Qed.

Lemma u32_mul_l (a b : Z) : u32 (u32 a * b) = u32 (a * b).
Proof. unfold u32, UINT32_MODULUS. apply Z.mul_mod_idemp_l. lia. Qed.

Lemma u32_mul_r (a b : Z) : u32 (a * u32 b) = u32 (a * b).
Proof. unfold u32, UINT32_MODULUS. apply Z.mul_mod_idemp_r. lia. Qed.

Lemma u32_add_mul_r (a b c : Z) : u32 (a + u32 b * c) = u32 (a + b * c).
Proof. rewrite <- u32_add_r, u32_mul_l, u32_add_r. reflexivity. Qed.

Lemma u32_add_mul_rr (a b c : Z) : u32 (a + b * u32 c) = u32 (a + b * c).
Proof. rewrite <- u32_add_r, u32_mul_r, u32_add_r. reflexivity. Qed.

Lemma nir_src_as_const_value_eval (env regs : nat -> Z) (s : nir_src)
    (c : Z) :
  nir_src_as_const_value s = Some c -> eval_src env regs s = u32 c.
Proof.
  destruct s as [[v| | | |]|]; simpl; intros E; inversion E; reflexivity.
Qed.

Ltac u32_norm :=
  rewrite ?Z.add_0_l, ?Z.add_0_r;
  repeat (rewrite u32_idem || rewrite u32_add_l || rewrite u32_add_r ||
          rewrite u32_mul_l || rewrite u32_mul_r ||
          rewrite u32_add_mul_r || rewrite u32_add_mul_rr);
  try (f_equal; ring).

(** One array link adds its index at the current stride. *)
Lemma deref_reg_src_link_element (env regs : nat -> Z) (index : nir_src)
    (src src' : nir_reg_src) (inner : Z) (st st' : locals_to_regs_state) :
  offset_folded src ->
  deref_reg_src_link index src inner st = Ok (src', st') ->
  reg_src_element env regs src' =
  u32 (reg_src_element env regs src + eval_src env regs index * inner).
Proof.
  unfold offset_folded, deref_reg_src_link, reg_src_element.
  destruct src as [r bo [i|]]; cbn [indirect base_offset reg].
  - intros (-> & Hssa). destruct i as [s|]; [|discriminate].
    assert (G : (src1 <- (assert (0 =? 0) Assert_base_offset_zero ;;;
                          ret (mk_reg_src r 0 (Some (src_ssa s)))) ;;
                 match indirect src1 with
                 | Some (src_ssa ssa) =>
                     idx <- nir_ssa_for_src index ;;
                     stride <- nir_imm_int inner ;;
                     prod <- nir_imul idx stride ;;
                     sum <- nir_iadd ssa prod ;;
                     ret (mk_reg_src (reg src1) (base_offset src1)
                                     (Some (src_ssa sum)))
                 | _ => lift (Fatal Assert_indirect_is_ssa)
                 end) st = Ok (src', st') ->
              u32 (base_offset src' +
                   match indirect src' with
                   | Some i => eval_src env regs i
                   | None => 0
                   end) =
              u32 (u32 (0 + eval_src env regs (src_ssa s)) +
                   eval_src env regs index * inner)).
    { unfold nir_ssa_for_src, nir_imm_int, nir_imul, nir_iadd.
      destruct index as [si|ri]; run_monad; intros E; inversion E; subst;
        cbn [indirect base_offset eval_src eval_ssa]; u32_norm. }
    destruct (nir_src_as_const_value index); exact G.
  - intros _. destruct (nir_src_as_const_value index) as [c|] eqn:Hc.
    + run_monad. intros E; inversion E; subst.
      cbn [indirect base_offset].
      rewrite (nir_src_as_const_value_eval env regs index c Hc).
      u32_norm.
    + unfold nir_ssa_for_src, nir_imm_int, nir_imul, nir_iadd.
      destruct index as [si|ri]; run_monad; intros E; inversion E; subst;
        cbn [indirect base_offset eval_src eval_ssa]; u32_norm.
Qed.

Lemma deref_reg_src_loop_element (env regs : nat -> Z)
    (d : nir_deref_instr) :
  forall src src' inner st st',
    offset_folded src ->
    deref_reg_src_loop d src inner st = Ok (src', st') ->
    reg_src_element env regs src' =
    u32 (reg_src_element env regs src + inner * linear_index env regs d).
Proof.
  unfold linear_index.
  induction d; intros src src' inner st st' F E; simpl in E;
    try (inversion E; subst; simpl; rewrite Z.mul_0_r, Z.add_0_r;
         unfold reg_src_element; now rewrite u32_idem);
    try (simpl; eapply IHd; eauto; fail).
  unfold bind at 1 in E.
  destruct (deref_reg_src_link_folded arr_index src inner st F)
    as (src1 & st1 & L & F1 & _).
  rewrite L in E.
  rewrite (IHd _ _ _ _ _ F1 E).
  rewrite (deref_reg_src_link_element env regs _ _ _ _ _ _ F L).
  cbn [array_index_values array_dimensions row_major].
  u32_norm.
Qed.

Lemma get_deref_reg_src_element `{fnv32_1a} (d : nir_deref_instr)
    (st st' : locals_to_regs_state) (src : nir_reg_src) :
  get_deref_reg_src d st = Ok (src, st') ->
  forall env regs,
    reg_src_element env regs src =
    if num_array_elems (reg src) =? 0 then 0
    else u32 (linear_index env regs d).
Proof.
  unfold get_deref_reg_src. unfold bind at 1.
  destruct (get_reg_for_deref d st) as [[r st1]|] eqn:G; [|discriminate].
  cbn [reg]. destruct (num_array_elems r =? 0) eqn:Z0.
  - intros E; inversion E; subst. cbn [reg]. rewrite Z0. reflexivity.
  - intros E env regs.
    assert (F : offset_folded (mk_reg_src r 0 None)) by exact I.
    destruct (deref_reg_src_loop_folded d (mk_reg_src r 0 None) 1 st1 F)
      as ((s2 & st2 & E2 & _ & R2 & _) & _).
    rewrite E2 in E. inversion E; subst. rewrite R2. cbn [reg]. rewrite Z0.
    rewrite (deref_reg_src_loop_element env regs d _ _ _ _ _ F E2).
    unfold reg_src_element. cbn [base_offset indirect]. u32_norm.
Qed.

(** X5. The operand [get_deref_reg_src] returns addresses the row-major
    position of the chain's index values in the chain's array dimensions,
    innermost index at stride 1, computed in 32 bits; for a register that
    is no array it addresses element 0. *)
Theorem get_deref_reg_src_row_major `{fnv32_1a} (d : nir_deref_instr)
    (st st' : locals_to_regs_state) (src : nir_reg_src) :
  get_deref_reg_src d st = Ok (src, st') ->
  forall env regs,
    reg_src_element env regs src =
    if num_array_elems (reg src) =? 0 then 0
    else u32 (linear_index env regs d).
Proof. apply get_deref_reg_src_element. Qed.

Lemma get_deref_reg_src_row_major_witness :
  let d := sample_t_a_elem (src_ssa (ssa_value 7)) (src_reg 5) in
  let env := fun _ : nat => 2 in
  let regs := fun _ : nat => 3 in
  linear_index env regs d = 11 /\
  reg_src_element env regs
    (fst (result_value (mk_reg_src (new_register d 0) 0 None,
                        initial_state empty_impl)
            (get_deref_reg_src (H := mesa_fnv32_1a) d
               (initial_state empty_impl)))) = 11.
Proof.
  intros d env regs. split; [reflexivity|].
  pose (res := result_value (mk_reg_src (new_register d 0) 0 None,
                             initial_state empty_impl)
                 (get_deref_reg_src (H := mesa_fnv32_1a) d
                    (initial_state empty_impl))).
  change (reg_src_element env regs (fst res) = 11).
  rewrite (get_deref_reg_src_row_major (H := mesa_fnv32_1a) d
             (initial_state empty_impl) (snd res) (fst res)).
  - reflexivity.
  - vm_compute. reflexivity.
Defined.

Lemma deref_reg_src_link_constant (index : nir_src) (r : nir_register)
    (bo inner c : Z) (st : locals_to_regs_state) :
  nir_src_as_const_value index = Some c ->
  deref_reg_src_link index (mk_reg_src r bo None) inner st =
  Ok (mk_reg_src r (u32 (bo + c * inner)) None, st).
Proof.
  intros Hc. unfold deref_reg_src_link. rewrite Hc. reflexivity.
Qed.

Lemma deref_reg_src_link_dynamic (index : nir_src) (src src' : nir_reg_src)
    (inner : Z) (st st' : locals_to_regs_state) :
  indirect src <> None \/ nir_src_as_const_value index = None ->
  deref_reg_src_link index src inner st = Ok (src', st') ->
  indirect src' <> None.
Proof.
  unfold deref_reg_src_link, nir_ssa_for_src, nir_imm_int, nir_imul, nir_iadd.
  destruct src as [r bo ind]. cbn [indirect].
  destruct (nir_src_as_const_value index) as [c|], ind as [[s|ri]|];
    intros [N|N]; try congruence; run_monad;
    try (destruct (bo =? 0); [|discriminate]);
    try discriminate;
    try (destruct index; simpl);
    intros E; inversion E; subst; simpl; discriminate.
Qed.

Lemma u32_add_mul_add (a b c k : Z) :
  u32 (a + b * (u32 c + k)) = u32 (a + b * (c + k)).
Proof.
  rewrite <- (u32_add_mul_rr a b (u32 c + k)), u32_add_l, u32_add_mul_rr.
  reflexivity.
Qed.

Lemma deref_reg_src_loop_constant (env regs : nat -> Z)
    (d : nir_deref_instr) :
  forall r bo inner st,
    all_indices_constant d = true ->
    bo = u32 bo ->
    deref_reg_src_loop d (mk_reg_src r bo None) inner st =
    Ok (mk_reg_src r (u32 (bo + inner * linear_index env regs d)) None, st).
Proof.
  unfold linear_index.
  induction d; intros r bo inner st A B; simpl in A |- *;
    try (rewrite Z.mul_0_r, Z.add_0_r, <- B; reflexivity);
    try (now apply IHd).
  destruct (nir_src_as_const_value arr_index) as [c|] eqn:Hc;
    [|discriminate].
  unfold bind at 1. rewrite (deref_reg_src_link_constant _ _ _ _ c _ Hc).
  rewrite IHd by (auto; now rewrite u32_idem).
  rewrite (nir_src_as_const_value_eval env regs arr_index c Hc).
  do 3 f_equal. rewrite u32_add_l, u32_add_mul_r, u32_add_mul_add.
  f_equal. ring.
Qed.

Lemma deref_reg_src_loop_dynamic (d : nir_deref_instr) :
  forall src src' inner st st',
    offset_folded src ->
    indirect src <> None \/ all_indices_constant d = false ->
    deref_reg_src_loop d src inner st = Ok (src', st') ->
    indirect src' <> None.
Proof.
  induction d; intros src src' inner st st' F N E; simpl in E, N;
    try (inversion E; subst; destruct N; [assumption|discriminate]);
    try (eapply IHd; eauto; fail).
  unfold bind at 1 in E.
  destruct (deref_reg_src_link_folded arr_index src inner st F)
    as (src1 & st1 & L & F1 & _).
  rewrite L in E. eapply IHd; [exact F1| |exact E].
  destruct (nir_src_as_const_value arr_index) as [c|] eqn:Hc.
  - destruct N as [N|N]; [|now right].
    left. eapply deref_reg_src_link_dynamic; eauto.
  - left. eapply deref_reg_src_link_dynamic; eauto.
Qed.

(** X6. For an array register, [get_deref_reg_src] builds a direct operand
    exactly when every array index of the chain is a constant: then the
    base offset is the row-major position and no instruction is inserted;
    otherwise the operand has an indirect and base offset 0. *)
Theorem get_deref_reg_src_direct_iff_constant `{fnv32_1a}
    (d : nir_deref_instr) (st st1 : locals_to_regs_state)
    (r : nir_register) :
  get_reg_for_deref d st = Ok (r, st1) ->
  num_array_elems r <> 0 ->
  (all_indices_constant d = true ->
   forall env regs,
     get_deref_reg_src d st =
     Ok (mk_reg_src r (u32 (linear_index env regs d)) None, st1)) /\
  (all_indices_constant d = false ->
   exists src st',
     get_deref_reg_src d st = Ok (src, st') /\
     reg src = r /\ base_offset src = 0 /\
     exists ssa, indirect src = Some (src_ssa ssa)).
Proof.
  intros G Hn.
  assert (Q : get_deref_reg_src d st =
              deref_reg_src_loop d (mk_reg_src r 0 None) 1 st1).
  { unfold get_deref_reg_src. unfold bind at 1. rewrite G. cbn [reg].
    destruct (Z.eqb_spec (num_array_elems r) 0); [contradiction|].
    reflexivity. }
  split.
  - intros A env regs. rewrite Q.
    rewrite (deref_reg_src_loop_constant env regs d r 0 1 st1 A eq_refl).
    rewrite Z.add_0_l, Z.mul_1_l. reflexivity.
  - intros A. rewrite Q.
    assert (F : offset_folded (mk_reg_src r 0 None)) by exact I.
    destruct (deref_reg_src_loop_folded d (mk_reg_src r 0 None) 1 st1 F)
      as ((src & st2 & E & F2 & R2 & _) & _).
    exists src, st2. split; [exact E|]. split; [exact R2|].
    pose proof (deref_reg_src_loop_dynamic d _ _ _ _ _ F (or_intror A) E)
      as N.
    unfold offset_folded in F2. destruct (indirect src) as [i|];
      [|congruence].
    destruct F2 as (B & S). split; [exact B|].
    destruct i as [ssa|]; [eauto|discriminate].
Qed.

Lemma get_deref_reg_src_direct_iff_constant_witness :
  let d := sample_t_a_elem (src_ssa (ssa_load_const 2))
                           (src_ssa (ssa_load_const 3)) in
  let st := initial_state empty_impl in
  let h := result_value 0 (hash_deref (H := mesa_fnv32_1a) d) in
  get_deref_reg_src (H := mesa_fnv32_1a) d st =
  Ok (mk_reg_src (new_register d 0) 11 None, state_with_new_register st h d).
Proof.
  intros d st h.
  destruct (get_deref_reg_src_direct_iff_constant (H := mesa_fnv32_1a)
              d st (state_with_new_register st h d) (new_register d 0))
    as (A & _).
  - vm_compute. reflexivity.
  - vm_compute. discriminate.
  - exact (A eq_refl (fun _ => 0) (fun _ => 0)).
Defined.

Lemma row_major_bounds (indices dims : list Z) :
  indices_in_bounds indices dims ->
  0 <= row_major indices dims < fold_right Z.mul 1 dims.
Proof.
  induction 1 as [|i n il nl Hi _ IH]; simpl; [lia|]. nia.
Qed.

Lemma row_major_injective (a : list Z) :
  forall b dims,
    indices_in_bounds a dims -> indices_in_bounds b dims ->
    row_major a dims = row_major b dims -> a = b.
Proof.
  induction a as [|i a IH]; intros b dims Ha Hb E.
  - inversion Ha; subst. inversion Hb; subst. reflexivity.
  - inversion Ha as [|? n ? ns Hi Ha']; subst.
    inversion Hb as [|j ? b' ? Hj Hb']; subst. simpl in E.
    assert (Q : row_major a ns = row_major b' ns) by nia.
    assert (i = j) by nia. subst.
    f_equal. eapply IH; eauto.
Qed.

(** X7. With every index inside its array, and dimensions whose product
    fits 32 bits, the operand of an array register addresses the row-major
    position without wrap-around, and that position is below the product
    of the chain's dimensions. *)
Theorem get_deref_reg_src_in_bounds `{fnv32_1a} (d : nir_deref_instr)
    (st st' : locals_to_regs_state) (src : nir_reg_src)
    (env regs : nat -> Z) :
  get_deref_reg_src d st = Ok (src, st') ->
  num_array_elems (reg src) <> 0 ->
  indices_in_bounds (array_index_values env regs d) (array_dimensions d) ->
  fold_right Z.mul 1 (array_dimensions d) < UINT32_MODULUS ->
  reg_src_element env regs src = linear_index env regs d /\
  0 <= reg_src_element env regs src < array_dimensions_product d.
Proof.
  intros E Hn B P.
  pose proof (get_deref_reg_src_element d st st' src E env regs) as Q.
  destruct (Z.eqb_spec (num_array_elems (reg src)) 0); [contradiction|].
  pose proof (row_major_bounds _ _ B) as R. fold (linear_index env regs d) in R.
  unfold array_dimensions_product.
  rewrite (u32_small (fold_right Z.mul 1 (array_dimensions d))) by lia.
  rewrite Q, u32_small by lia. lia.
Qed.

Lemma get_deref_reg_src_in_bounds_witness :
  let d := sample_t_a_elem (src_ssa (ssa_value 7)) (src_reg 5) in
  let env := fun _ : nat => 2 in
  let regs := fun _ : nat => 3 in
  let res := result_value (mk_reg_src (new_register d 0) 0 None,
                           initial_state empty_impl)
               (get_deref_reg_src (H := mesa_fnv32_1a) d
                  (initial_state empty_impl)) in
  0 <= reg_src_element env regs (fst res) < 12.
Proof.
  intros d env regs res.
  refine (proj2 (get_deref_reg_src_in_bounds (H := mesa_fnv32_1a) d
                   (initial_state empty_impl) (snd res) (fst res) env regs
                   _ _ _ _)).
  - vm_compute. reflexivity.
  - vm_compute. discriminate.
  - repeat constructor; vm_compute; discriminate.
  - vm_compute. reflexivity.
Defined.

(** X8. Two accesses into arrays of the same dimensions whose product
    fits 32 bits, both through array registers ([num_array_elems] not 0)
    and both with every index inside its array, address the same element
    of their registers only if all their index values agree: under these
    conditions distinct elements of a local array never share a register
    slot. *)
Theorem get_deref_reg_src_no_aliasing `{fnv32_1a} (a b : nir_deref_instr)
    (sta sta' stb stb' : locals_to_regs_state) (sa sb : nir_reg_src)
    (env regs : nat -> Z) :
  get_deref_reg_src a sta = Ok (sa, sta') ->
  get_deref_reg_src b stb = Ok (sb, stb') ->
  num_array_elems (reg sa) <> 0 -> num_array_elems (reg sb) <> 0 ->
  array_dimensions a = array_dimensions b ->
  indices_in_bounds (array_index_values env regs a) (array_dimensions a) ->
  indices_in_bounds (array_index_values env regs b) (array_dimensions b) ->
  fold_right Z.mul 1 (array_dimensions a) < UINT32_MODULUS ->
  reg_src_element env regs sa = reg_src_element env regs sb ->
  array_index_values env regs a = array_index_values env regs b.
Proof.
  intros Ea Eb Na Nb D Ba Bb P Q.
  pose proof (get_deref_reg_src_element a sta sta' sa Ea env regs) as Qa.
  pose proof (get_deref_reg_src_element b stb stb' sb Eb env regs) as Qb.
  destruct (Z.eqb_spec (num_array_elems (reg sa)) 0); [contradiction|].
  destruct (Z.eqb_spec (num_array_elems (reg sb)) 0); [contradiction|].
  pose proof (row_major_bounds _ _ Ba) as Ra.
  pose proof (row_major_bounds _ _ Bb) as Rb.
  rewrite <- D in Rb.
  unfold linear_index in Qa, Qb.
  rewrite u32_small in Qa by lia. rewrite u32_small in Qb by (rewrite <- D; lia).
  eapply row_major_injective; [exact Ba|rewrite D; exact Bb|].
  rewrite D at 2. congruence.
Qed.

Lemma get_deref_reg_src_no_aliasing_witness :
  let a := sample_m_elem (src_ssa (ssa_value 7)) (src_ssa (ssa_load_const 2)) in
  let b := sample_m_elem (src_ssa (ssa_load_const 1)) (src_reg 5) in
  let env := fun _ : nat => 1 in
  let regs := fun _ : nat => 2 in
  array_index_values env regs a = array_index_values env regs b.
Proof.
  intros a b env regs.
  pose (ra := result_value (mk_reg_src (new_register a 0) 0 None,
                            initial_state empty_impl)
                (get_deref_reg_src (H := mesa_fnv32_1a) a
                   (initial_state empty_impl))).
  pose (rb := result_value (mk_reg_src (new_register a 0) 0 None,
                            initial_state empty_impl)
                (get_deref_reg_src (H := mesa_fnv32_1a) b (snd ra))).
  apply (get_deref_reg_src_no_aliasing (H := mesa_fnv32_1a) a b
           (initial_state empty_impl) (snd ra) (snd ra) (snd rb)
           (fst ra) (fst rb) env regs).
  - vm_compute. reflexivity.
  - vm_compute. reflexivity.
  - vm_compute. discriminate.
  - vm_compute. discriminate.
  - reflexivity.
  - repeat constructor; vm_compute; discriminate.
  - repeat constructor; vm_compute; discriminate.
  - vm_compute. reflexivity.
  - vm_compute. reflexivity.
Defined.

(** ** Looking a chain up again *)

Lemma search_app (l1 l2 : list hash_entry) (h : Z) (k : nir_deref_instr) :
  hash_table_search_pre_hashed (l1 ++ l2) h k =
  match hash_table_search_pre_hashed l1 h k with
  | Ok None => hash_table_search_pre_hashed l2 h k
  | other => other
  end.
Proof.
  induction l1 as [|x l1 IH]; simpl; [reflexivity|].
  destruct (entry_hash x =? h); auto.
  destruct (derefs_equal k (entry_key x)) as [[|]|]; auto.
Qed.

(** X9. Lookup after lookup: once [get_reg_for_deref] has returned a
    register for a chain, asking again in the state it left returns the
    same register and changes nothing; no second register is created. *)
Theorem get_reg_for_deref_again `{fnv32_1a} (d : nir_deref_instr)
    (st st' : locals_to_regs_state) (r : nir_register) :
  get_reg_for_deref d st = Ok (r, st') ->
  get_reg_for_deref d st' = Ok (r, st').
Proof.
  intros E.
  destruct (get_reg_for_deref_cases d st st' r E)
    as (h & var & Hh & Hv & Hc & [(e & Hs & Hr & Hst)|(Hs & Hvec & Hr & Hst)]).
  - subst st'. exact E.
  - pose proof (hash_deref_loop_chain_ok d _ _ Hh) as C.
    assert (Q : derefs_equal d d = Ok true)
      by now apply derefs_equal_true_iff.
    subst st' r. unfold get_reg_for_deref. run_monad.
    rewrite Hh, Hv, Hc.
    unfold state_with_new_register at 1. cbn [regs_table].
    rewrite search_app, Hs. simpl.
    rewrite Z.eqb_refl, Q. reflexivity.
Qed.

Lemma get_reg_for_deref_again_witness :
  let d := sample_s_x (src_ssa (ssa_value 7)) in
  let st := initial_state empty_impl in
  let h := result_value 0 (hash_deref (H := mesa_fnv32_1a) d) in
  let st' := state_with_new_register st h d in
  get_reg_for_deref (H := mesa_fnv32_1a) d st' = Ok (new_register d 0, st').
Proof.
  intros d st h st'.
  apply (get_reg_for_deref_again (H := mesa_fnv32_1a) d st st'
           (new_register d 0)).
  vm_compute. reflexivity.
Defined.

Lemma deref_reg_src_link_any_state (index : nir_src) (src src' : nir_reg_src)
    (inner : Z) (st st' : locals_to_regs_state) :
  deref_reg_src_link index src inner st = Ok (src', st') ->
  forall st2, exists st2',
    deref_reg_src_link index src inner st2 = Ok (src', st2').
Proof.
  unfold deref_reg_src_link, nir_ssa_for_src, nir_imm_int, nir_imul, nir_iadd.
  destruct src as [r bo ind].
  destruct (nir_src_as_const_value index) as [c|], ind as [[s|ri]|];
    run_monad;
    try (destruct (bo =? 0); [|discriminate]);
    try discriminate;
    try (destruct index; simpl);
    intros E st2; inversion E; subst; eexists; reflexivity.
Qed.

Lemma deref_reg_src_loop_any_state (d : nir_deref_instr) :
  forall src src' inner st st',
    deref_reg_src_loop d src inner st = Ok (src', st') ->
    forall st2, exists st2',
      deref_reg_src_loop d src inner st2 = Ok (src', st2').
Proof.
  induction d; intros src src' inner st st' E st2; simpl in E |- *;
    try (inversion E; subst; eexists; reflexivity);
    try (eapply IHd; eauto; fail).
  unfold bind at 1 in E.
  destruct (deref_reg_src_link arr_index src inner st)
    as [[src1 st1]|] eqn:L; [|discriminate].
  destruct (deref_reg_src_link_any_state _ _ _ _ _ _ L st2) as (st3 & L2).
  unfold bind at 1. rewrite L2. eapply IHd; eauto.
Qed.

(** X10. Within the lowering of one function, every later access through
    a chain returns the operand its first access returned: same register,
    same base offset, same index expression, so a store and a later load
    through one chain meet in the same slot. *)
Theorem get_deref_reg_src_same_operand `{fnv32_1a}
    (impl : nir_function_impl) (d : nir_deref_instr)
    (st st1 st2 : locals_to_regs_state) (src : nir_reg_src) :
  lowering_reaches (initial_state impl) st ->
  get_deref_reg_src d st = Ok (src, st1) ->
  lowering_reaches st1 st2 ->
  exists st3, get_deref_reg_src d st2 = Ok (src, st3).
Proof.
  intros R0 E R1.
  destruct (lowering_reaches_table _ _ R0 (initial_state_table_inv impl))
    as (I0 & _).
  unfold get_deref_reg_src in E. unfold bind at 1 in E.
  destruct (get_reg_for_deref d st) as [[r st0]|] eqn:G; [|discriminate].
  destruct (get_reg_for_deref_entry d st st0 r I0 G)
    as (I1 & C & _ & e & Hin & S & D).
  destruct (get_reg_for_deref_cases d st st0 r G)
    as (h & var & _ & Hv & Hc & _).
  assert (R01 : lowering_reaches st0 st1).
  { cbn [reg] in E. destruct (num_array_elems r =? 0).
    - inversion E; subst. apply reaches_refl.
    - assert (F : offset_folded (mk_reg_src r 0 None)) by exact I.
      destruct (deref_reg_src_loop_folded d (mk_reg_src r 0 None) 1 st0 F)
        as ((s2 & st2' & E2 & _ & _ & T & Rg & A & _) & _).
      rewrite E2 in E. inversion E; subst.
      now apply lowering_reaches_same_table. }
  destruct (lowering_reaches_table _ _
              (lowering_reaches_trans _ _ _ R01 R1) I1) as (I2 & ext & X).
  assert (Hin2 : In e (regs_table st2))
    by (rewrite X; apply in_or_app; now left).
  pose proof (get_reg_for_deref_known d st2 e var I2 Hin2 S C Hv Hc) as G2.
  unfold get_deref_reg_src. unfold bind at 1. rewrite G2, D.
  cbn [reg] in E |- *. destruct (num_array_elems r =? 0).
  - inversion E; subst. eexists. reflexivity.
  - eapply deref_reg_src_loop_any_state; eauto.
Qed.

Lemma get_deref_reg_src_same_operand_witness :
  let d := sample_m_elem (src_ssa (ssa_value 7)) (src_ssa (ssa_load_const 2)) in
  let res := result_value (mk_reg_src (new_register d 0) 0 None,
                           initial_state empty_impl)
               (get_deref_reg_src (H := mesa_fnv32_1a) d
                  (initial_state empty_impl)) in
  exists st3,
    get_deref_reg_src (H := mesa_fnv32_1a) d (snd res) = Ok (fst res, st3).
Proof.
  intros d res.
  apply (get_deref_reg_src_same_operand (H := mesa_fnv32_1a) empty_impl d
           (initial_state empty_impl) (snd res) (snd res) (fst res)).
  - apply reaches_refl.
  - vm_compute. reflexivity.
  - apply reaches_refl.
Defined.

(** ** One register for each shape *)

Lemma get_reg_for_deref_accounts `{fnv32_1a} (regs0 : list nir_register)
    (alloc0 : nat) (seen : list nir_deref_instr) (d : nir_deref_instr)
    (st st' : locals_to_regs_state) (r : nir_register) :
  table_accounts regs0 alloc0 seen st ->
  get_reg_for_deref d st = Ok (r, st') ->
  table_accounts regs0 alloc0 (seen ++ [d]) st'.
Proof.
  intros (I & S & A & R) E.
  destruct (get_reg_for_deref_entry d st st' r I E) as (I' & C & _ & _).
  destruct (get_reg_for_deref_cases d st st' r E)
    as (h & var & Hh & Hv & Hc & [(e & Hs & Hr & Hst)|(Hs & Hvec & Hr & Hst)]).
  - subst st'. split; [exact I|]. split; [|auto].
    intros s. rewrite map_app, in_app_iff, <- S. simpl.
    split; [auto|]. intros [X|[<-|[]]]; [exact X|].
    destruct (search_found _ _ _ _ Hs) as (Hin & _ & Q).
    destruct I as (Hok & _). rewrite Forall_forall in Hok.
    apply derefs_equal_true_iff in Q; auto; [|apply (Hok e Hin)].
    rewrite Q. unfold table_shapes.
    apply (in_map (fun x => deref_shape (entry_key x))). exact Hin.
  - subst st'. split; [exact I'|].
    unfold state_with_new_register; cbn [regs_table impl_reg_alloc
                                          impl_registers].
    split; [|split].
    + intros s. unfold table_shapes. rewrite !map_app, !in_app_iff.
      fold (table_shapes (regs_table st)). rewrite S. simpl. tauto.
    + rewrite length_app, A. simpl. lia.
    + rewrite R, map_app, <- app_assoc. reflexivity.
Qed.

Lemma table_accounts_same_table `{fnv32_1a} (regs0 : list nir_register)
    (alloc0 : nat) (seen : list nir_deref_instr)
    (st st' : locals_to_regs_state) :
  regs_table st' = regs_table st ->
  impl_registers st' = impl_registers st ->
  impl_reg_alloc st' = impl_reg_alloc st ->
  table_accounts regs0 alloc0 seen st ->
  table_accounts regs0 alloc0 seen st'.
Proof.
  unfold table_accounts, table_inv, entry_ok. intros -> -> ->. auto.
Qed.

Lemma get_deref_reg_src_accounts `{fnv32_1a} (regs0 : list nir_register)
    (alloc0 : nat) (seen : list nir_deref_instr) (d : nir_deref_instr)
    (st st' : locals_to_regs_state) (src : nir_reg_src) :
  table_accounts regs0 alloc0 seen st ->
  get_deref_reg_src d st = Ok (src, st') ->
  table_accounts regs0 alloc0 (seen ++ [d]) st'.
Proof.
  intros T. unfold get_deref_reg_src. unfold bind at 1.
  destruct (get_reg_for_deref d st) as [[r st1]|] eqn:G; [|discriminate].
  pose proof (get_reg_for_deref_accounts _ _ _ _ _ _ _ T G) as T1.
  cbn [reg]. destruct (num_array_elems r =? 0).
  - intros E; inversion E; subst. exact T1.
  - intros E.
    assert (F : offset_folded (mk_reg_src r 0 None)) by exact I.
    destruct (deref_reg_src_loop_folded d (mk_reg_src r 0 None) 1 st1 F)
      as ((s2 & st2 & E2 & _ & _ & Tb & Rg & A & _) & _).
    rewrite E2 in E. inversion E; subst.
    eapply table_accounts_same_table; eauto.
Qed.

Lemma lower_instr_accounts `{fnv32_1a} (regs0 : list nir_register)
    (alloc0 : nat) (seen : list nir_deref_instr) (i : nir_instr)
    (out : list nir_instr) (st st' : locals_to_regs_state) :
  table_accounts regs0 alloc0 seen st ->
  lower_locals_to_regs_instr i st = Ok (out, st') ->
  table_accounts regs0 alloc0 (seen ++ instr_local_chain i) st'.
Proof.
  intros T.
  destruct i as [a|s|d|[d n dst|d v m|dst src|op]|t]; simpl;
    try (intros E; inversion E; subst; now rewrite app_nil_r);
    try discriminate.
  - destruct (nir_variable_mode_eqb (deref_mode d) nir_var_local); simpl;
      [|intros E; inversion E; subst; now rewrite app_nil_r].
    unfold bind at 1. unfold set_cursor_before_instr at 1. run_monad.
    match goal with
    | |- context [get_deref_reg_src d ?s] =>
        destruct (get_deref_reg_src d s) as [[rs st1]|] eqn:G;
        [|discriminate];
        assert (T0 : table_accounts regs0 alloc0 seen s)
          by (eapply table_accounts_same_table; eauto)
    end.
    pose proof (get_deref_reg_src_accounts _ _ _ _ _ _ _ T0 G) as T1.
    intros E; inversion E; subst.
    eapply table_accounts_same_table; [| | |exact T1]; reflexivity.
  - destruct (nir_variable_mode_eqb (deref_mode d) nir_var_local); simpl;
      [|intros E; inversion E; subst; now rewrite app_nil_r].
    unfold bind at 1. unfold set_cursor_before_instr at 1. run_monad.
    match goal with
    | |- context [get_deref_reg_src d ?s] =>
        destruct (get_deref_reg_src d s) as [[rs st1]|] eqn:G;
        [|discriminate];
        assert (T0 : table_accounts regs0 alloc0 seen s)
          by (eapply table_accounts_same_table; eauto)
    end.
    pose proof (get_deref_reg_src_accounts _ _ _ _ _ _ _ T0 G) as T1.
    intros E; inversion E; subst.
    eapply table_accounts_same_table; [| | |exact T1]; reflexivity.
Qed.

Lemma lower_instrs_accounts `{fnv32_1a} (regs0 : list nir_register)
    (alloc0 : nat) (l : list nir_instr) :
  forall seen out st st',
    table_accounts regs0 alloc0 seen st ->
    lower_locals_to_regs_instrs l st = Ok (out, st') ->
    table_accounts regs0 alloc0 (seen ++ local_chains l) st'.
Proof.
  induction l as [|i l IH]; intros seen out st st' T E.
  - inversion E; subst. simpl. now rewrite app_nil_r.
  - rewrite lower_instrs_cons in E.
    destruct (lower_locals_to_regs_instr i st) as [[o st0]|] eqn:Ei;
      [|discriminate].
    destruct (lower_locals_to_regs_instrs l st0) as [[o1 st1]|] eqn:El;
      [|discriminate].
    inversion E; subst. unfold local_chains. simpl. rewrite app_assoc.
    eapply IH; [|exact El]. eapply lower_instr_accounts; eauto.
Qed.

Lemma lower_blocks_accounts `{fnv32_1a} (regs0 : list nir_register)
    (alloc0 : nat) (bs : list nir_block) :
  forall seen bs' st st',
    table_accounts regs0 alloc0 seen st ->
    lower_locals_to_regs_blocks bs st = Ok (bs', st') ->
    table_accounts regs0 alloc0
      (seen ++ flat_map (fun b => local_chains (instr_list b)) bs) st'.
Proof.
  induction bs as [|b bs IH]; intros seen bs' st st' T E.
  - inversion E; subst. simpl. now rewrite app_nil_r.
  - rewrite lower_blocks_cons in E.
    destruct (lower_locals_to_regs_instrs (instr_list b) st)
      as [[o st0]|] eqn:Ei; [|discriminate].
    destruct (lower_locals_to_regs_blocks bs st0) as [[bs1 st1]|] eqn:Eb;
      [|discriminate].
    inversion E; subst. simpl. rewrite app_assoc.
    eapply IH; [|exact Eb]. eapply lower_instrs_accounts; eauto.
Qed.

(** X11. The pass over a function appends to the function's registers
    exactly one register for each class of [derefs_equal] among the chains
    of its local loads and stores, leaves the registers it found as they
    were, and advances [reg_alloc] by the number it appended. *)
Theorem nir_lower_locals_to_regs_impl_one_register_per_shape `{fnv32_1a}
    (impl impl' : nir_function_impl) (p : bool) :
  nir_lower_locals_to_regs_impl impl = Ok (p, impl') ->
  exists (new : list nir_register)
         (shapes : list (option nat * list deref_link)),
    registers impl' = registers impl ++ new /\
    reg_alloc impl' = (reg_alloc impl + length new)%nat /\
    length shapes = length new /\
    NoDup shapes /\
    forall s, In s shapes <-> In s (map deref_shape (impl_local_chains impl)).
Proof.
  unfold nir_lower_locals_to_regs_impl. simpl.
  destruct (lower_locals_to_regs_blocks (blocks impl)
              (mk_state [] false (registers impl) (reg_alloc impl) []))
    as [[bs' st']|] eqn:E; [|discriminate].
  intros Q; inversion Q; subst. simpl.
  assert (T0 : table_accounts (registers impl) (reg_alloc impl) []
                 (mk_state [] false (registers impl) (reg_alloc impl) [])).
  { split; [apply (initial_state_table_inv impl)|].
    simpl. split; [tauto|]. split; [lia|now rewrite app_nil_r]. }
  destruct (lower_blocks_accounts _ _ _ _ _ _ _ T0 E)
    as ((_ & N & _) & S & A & R).
  exists (map entry_data (regs_table st')), (table_shapes (regs_table st')).
  split; [exact R|]. split; [now rewrite length_map|].
  split; [unfold table_shapes; now rewrite !length_map|].
  split; [exact N|]. exact S.
Qed.

Lemma nir_lower_locals_to_regs_impl_one_register_per_shape_witness :
  let res := result_value (false, empty_impl)
               (nir_lower_locals_to_regs_impl (H := mesa_fnv32_1a)
                  sample_impl) in
  length (impl_local_chains sample_impl) = 3%nat /\
  length (registers (snd res)) = 1%nat /\
  exists (new : list nir_register)
         (shapes : list (option nat * list deref_link)),
    registers (snd res) = registers sample_impl ++ new /\
    reg_alloc (snd res) = (reg_alloc sample_impl + length new)%nat /\
    length shapes = length new /\
    NoDup shapes /\
    forall s, In s shapes <->
              In s (map deref_shape (impl_local_chains sample_impl)).
Proof.
  intros res. split; [reflexivity|]. split; [reflexivity|].
  apply (nir_lower_locals_to_regs_impl_one_register_per_shape
           (H := mesa_fnv32_1a) sample_impl (snd res) (fst res)).
  vm_compute. reflexivity.
Defined.

(** ** Progress and the shape of the rewritten block *)

Lemma lower_instr_progress `{fnv32_1a} (i : nir_instr)
    (out : list nir_instr) (st st' : locals_to_regs_state) :
  lower_locals_to_regs_instr i st = Ok (out, st') ->
  progress st' = progress st || is_local_load_store i.
Proof.
  destruct i as [a|s|d|[d n dst|d v m|dst src|op]|t]; simpl;
    try (intros E; inversion E; subst; now rewrite orb_false_r);
    try discriminate.
  - destruct (nir_variable_mode_eqb (deref_mode d) nir_var_local); simpl;
      [|intros E; inversion E; subst; now rewrite orb_false_r].
    unfold bind at 1. unfold set_cursor_before_instr at 1. run_monad.
    match goal with
    | |- context [get_deref_reg_src d ?s] =>
        destruct (get_deref_reg_src d s) as [[rs st1]|]; [|discriminate]
    end.
    intros E; inversion E; subst. simpl. now rewrite orb_true_r.
  - destruct (nir_variable_mode_eqb (deref_mode d) nir_var_local); simpl;
      [|intros E; inversion E; subst; now rewrite orb_false_r].
    unfold bind at 1. unfold set_cursor_before_instr at 1. run_monad.
    match goal with
    | |- context [get_deref_reg_src d ?s] =>
        destruct (get_deref_reg_src d s) as [[rs st1]|]; [|discriminate]
    end.
    intros E; inversion E; subst. simpl. now rewrite orb_true_r.
Qed.

Lemma lower_instrs_progress `{fnv32_1a} (l : list nir_instr) :
  forall out st st',
    lower_locals_to_regs_instrs l st = Ok (out, st') ->
    progress st' = progress st || existsb is_local_load_store l.
Proof.
  induction l as [|i l IH]; intros out st st' E.
  - inversion E; subst. simpl. now rewrite orb_false_r.
  - rewrite lower_instrs_cons in E.
    destruct (lower_locals_to_regs_instr i st) as [[o st0]|] eqn:Ei;
      [|discriminate].
    destruct (lower_locals_to_regs_instrs l st0) as [[o1 st1]|] eqn:El;
      [|discriminate].
    inversion E; subst. rewrite (IH _ _ _ El), (lower_instr_progress _ _ _ _ Ei).
    simpl. now rewrite orb_assoc.
Qed.

Lemma lower_blocks_progress `{fnv32_1a} (bs : list nir_block) :
  forall bs' st st',
    lower_locals_to_regs_blocks bs st = Ok (bs', st') ->
    progress st' =
    progress st ||
    existsb (fun b => existsb is_local_load_store (instr_list b)) bs.
Proof.
  induction bs as [|b bs IH]; intros bs' st st' E.
  - inversion E; subst. simpl. now rewrite orb_false_r.
  - rewrite lower_blocks_cons in E.
    destruct (lower_locals_to_regs_instrs (instr_list b) st)
      as [[o st0]|] eqn:Ei; [|discriminate].
    destruct (lower_locals_to_regs_blocks bs st0) as [[bs1 st1]|] eqn:Eb;
      [|discriminate].
    inversion E; subst. rewrite (IH _ _ _ Eb), (lower_instrs_progress _ _ _ _ Ei).
    simpl. now rewrite orb_assoc.
Qed.

Lemma impl_progress `{fnv32_1a} (impl impl' : nir_function_impl) (p : bool) :
  nir_lower_locals_to_regs_impl impl = Ok (p, impl') ->
  p = impl_has_local_access impl.
Proof.
  unfold nir_lower_locals_to_regs_impl. simpl.
  destruct (lower_locals_to_regs_blocks (blocks impl)
              (mk_state [] false (registers impl) (reg_alloc impl) []))
    as [[bs' st']|] eqn:E; [|discriminate].
  intros Q; inversion Q; subst.
  now rewrite (lower_blocks_progress _ _ _ _ E).
Qed.

Lemma lower_instrs_no_copy `{fnv32_1a} (l : list nir_instr) :
  forall out st st' dst src,
    lower_locals_to_regs_instrs l st = Ok (out, st') ->
    ~ In (instr_intrinsic (copy_deref dst src)) l.
Proof.
  induction l as [|i l IH]; intros out st st' dst src E Hin;
    [contradiction|].
  rewrite lower_instrs_cons in E.
  destruct (lower_locals_to_regs_instr i st) as [[o st0]|] eqn:Ei;
    [|discriminate].
  destruct (lower_locals_to_regs_instrs l st0) as [[o1 st1]|] eqn:El;
    [|discriminate].
  destruct Hin as [->|Hin]; [discriminate|].
  exact (IH _ _ _ dst src El Hin).
Qed.

Lemma lower_blocks_no_copy `{fnv32_1a} (bs : list nir_block) :
  forall bs' st st' b dst src,
    lower_locals_to_regs_blocks bs st = Ok (bs', st') ->
    In b bs ->
    ~ In (instr_intrinsic (copy_deref dst src)) (instr_list b).
Proof.
  induction bs as [|x bs IH]; intros bs' st st' b dst src E Hb;
    [contradiction|].
  rewrite lower_blocks_cons in E.
  destruct (lower_locals_to_regs_instrs (instr_list x) st)
    as [[o st0]|] eqn:Ei; [|discriminate].
  destruct (lower_locals_to_regs_blocks bs st0) as [[bs1 st1]|] eqn:Eb;
    [|discriminate].
  destruct Hb as [->|Hb].
  - eapply lower_instrs_no_copy; eauto.
  - eapply IH; eauto.
Qed.

(** X12. The progress the pass over a function reports is true exactly
    when the function held a load or store of local storage; a function
    without any, and without copies, comes back with its blocks, registers
    and register counter as they were. *)
Theorem nir_lower_locals_to_regs_impl_progress `{fnv32_1a}
    (impl impl' : nir_function_impl) (p : bool) :
  nir_lower_locals_to_regs_impl impl = Ok (p, impl') ->
  p = impl_has_local_access impl /\
  (p = false ->
   blocks impl' = blocks impl /\ registers impl' = registers impl /\
   reg_alloc impl' = reg_alloc impl).
Proof.
  intros E. pose proof (impl_progress impl impl' p E) as P.
  split; [exact P|]. intros Pf. subst p.
  unfold nir_lower_locals_to_regs_impl in E. simpl in E.
  destruct (lower_locals_to_regs_blocks (blocks impl)
              (mk_state [] false (registers impl) (reg_alloc impl) []))
    as [[bs' st']|] eqn:Eb; [|discriminate].
  assert (U : forallb block_untouched (blocks impl) = true).
  { apply forallb_forall. intros b Hb. unfold block_untouched.
    apply forallb_forall. intros i Hi.
    assert (L : is_local_load_store i = false).
    { destruct (is_local_load_store i) eqn:Q; [|reflexivity].
      assert (X : impl_has_local_access impl = true).
      { apply existsb_exists. exists b. split; [exact Hb|].
        apply existsb_exists. exists i. auto. }
      congruence. }
    destruct i as [| | |[d n dst|d v m|dst src|op]|]; simpl in *; auto;
      try (now rewrite L).
    exfalso. exact (lower_blocks_no_copy _ _ _ _ b dst src Eb Hb Hi). }
  rewrite (lower_blocks_untouched (blocks impl) _ U) in Eb.
  inversion Eb; subst. inversion E; subst. simpl. auto.
Qed.

Lemma nir_lower_locals_to_regs_impl_progress_witness :
  let res := result_value (true, empty_impl)
               (nir_lower_locals_to_regs_impl (H := mesa_fnv32_1a)
                  sample_impl_no_local) in
  fst res = false /\
  blocks (snd res) = blocks sample_impl_no_local /\
  registers (snd res) = registers sample_impl_no_local /\
  reg_alloc (snd res) = reg_alloc sample_impl_no_local.
Proof.
  intros res.
  destruct (nir_lower_locals_to_regs_impl_progress (H := mesa_fnv32_1a)
              sample_impl_no_local (snd res) (fst res)) as (A & B).
  - vm_compute. reflexivity.
  - split; [exact A|]. exact (B A).
Defined.

Lemma deref_reg_src_link_defs (index : nir_src) (src src' : nir_reg_src)
    (inner : Z) (st st' : locals_to_regs_state) :
  deref_reg_src_link index src inner st = Ok (src', st') ->
  exists new, inserted st' = inserted st ++ new /\
              forallb is_builder_def new = true.
Proof.
  unfold deref_reg_src_link, nir_ssa_for_src, nir_imm_int, nir_imul, nir_iadd.
  destruct src as [r bo ind].
  destruct (nir_src_as_const_value index) as [c|], ind as [[s|ri]|];
    run_monad;
    try (destruct (bo =? 0); [|discriminate]);
    try discriminate;
    try (destruct index; simpl);
    intros E; inversion E; subst; simpl;
    rewrite <- ?app_assoc; simpl;
    try (eexists; split; [reflexivity|reflexivity]);
    exists []; now rewrite app_nil_r.
Qed.

Lemma deref_reg_src_loop_defs (d : nir_deref_instr) :
  forall src src' inner st st',
    deref_reg_src_loop d src inner st = Ok (src', st') ->
    exists new, inserted st' = inserted st ++ new /\
                forallb is_builder_def new = true.
Proof.
  induction d; intros src src' inner st st' E; simpl in E; eauto;
    try (inversion E; subst; exists []; now rewrite app_nil_r).
  unfold bind at 1 in E.
  destruct (deref_reg_src_link arr_index src inner st)
    as [[src1 st1]|] eqn:L; [|discriminate].
  destruct (deref_reg_src_link_defs _ _ _ _ _ _ L) as (n1 & X1 & U1).
  destruct (IHd _ _ _ _ _ E) as (n2 & X2 & U2).
  exists (n1 ++ n2). rewrite X2, X1, app_assoc. split; [reflexivity|].
  rewrite forallb_app, U1, U2. reflexivity.
Qed.

Lemma get_deref_reg_src_defs `{fnv32_1a} (d : nir_deref_instr)
    (src : nir_reg_src) (st st' : locals_to_regs_state) :
  get_deref_reg_src d st = Ok (src, st') ->
  exists new, inserted st' = inserted st ++ new /\
              forallb is_builder_def new = true.
Proof.
  unfold get_deref_reg_src. unfold bind at 1.
  destruct (get_reg_for_deref d st) as [[r st1]|] eqn:G; [|discriminate].
  assert (X : inserted st1 = inserted st).
  { destruct (get_reg_for_deref_cases d st st1 r G)
      as (h & v & Hh & Hv & Hc & [(e & Hs & Hr & ->)|(Hs & Hvec & Hr & ->)]);
      reflexivity. }
  simpl. destruct (num_array_elems r =? 0).
  - intros E; inversion E; subst. exists []. now rewrite app_nil_r.
  - intros E. rewrite <- X. eapply deref_reg_src_loop_defs; eauto.
Qed.

Lemma lower_instr_rewritten `{fnv32_1a} (i : nir_instr)
    (out : list nir_instr) (st st' : locals_to_regs_state) :
  lower_locals_to_regs_instr i st = Ok (out, st') -> rewritten_as i out.
Proof.
  destruct i as [a|s|d|[d n dst|d v m|dst src|op]|t]; simpl;
    try (intros E; inversion E; subst; now apply rewritten_kept);
    try discriminate.
  - destruct (nir_variable_mode_eqb (deref_mode d) nir_var_local) eqn:Q;
      simpl.
    + apply nir_variable_mode_eqb_eq in Q.
      unfold bind at 1. unfold set_cursor_before_instr at 1. run_monad.
      match goal with
      | |- context [get_deref_reg_src d ?s] =>
          destruct (get_deref_reg_src d s) as [[rs st1]|] eqn:G;
          [|discriminate]
      end.
      destruct (get_deref_reg_src_defs _ _ _ _ G) as (new & Hins & U).
      cbn [inserted app] in Hins. intros E; inversion E; subst.
      now apply rewritten_load.
    + intros E; inversion E; subst. apply rewritten_kept. simpl.
      exact Q.
  - destruct (nir_variable_mode_eqb (deref_mode d) nir_var_local) eqn:Q;
      simpl.
    + apply nir_variable_mode_eqb_eq in Q.
      unfold bind at 1. unfold set_cursor_before_instr at 1. run_monad.
      match goal with
      | |- context [get_deref_reg_src d ?s] =>
          destruct (get_deref_reg_src d s) as [[rs st1]|] eqn:G;
          [|discriminate]
      end.
      destruct (get_deref_reg_src_defs _ _ _ _ G) as (new & Hins & U).
      cbn [inserted app] in Hins. intros E; inversion E; subst.
      destruct rs. now apply rewritten_store.
    + intros E; inversion E; subst. apply rewritten_kept. simpl.
      exact Q.
Qed.

(** X13. Rewriting a block replaces every load or store of local storage,
    in place, by index computations followed by exactly one move (reading
    the register for a load and keeping the load's destination; writing it
    for a store and keeping the store's value and write mask), and keeps
    every other instruction where it was. *)
Theorem lower_locals_to_regs_block_rewrites_in_place `{fnv32_1a}
    (block block' : nir_block) (st st' : locals_to_regs_state) :
  lower_locals_to_regs_block block st = Ok (block', st') ->
  exists segments,
    instr_list block' = concat segments /\
    Forall2 rewritten_as (instr_list block) segments.
Proof.
  unfold lower_locals_to_regs_block. unfold bind at 1.
  destruct (lower_locals_to_regs_instrs (instr_list block) st)
    as [[out st1]|] eqn:E; [|discriminate].
  intros Q; inversion Q; subst. cbn [instr_list]. clear Q.
  revert out st st' E. induction (instr_list block) as [|i l IH];
    intros out st st' E.
  - inversion E; subst. exists []. split; [reflexivity|constructor].
  - rewrite lower_instrs_cons in E.
    destruct (lower_locals_to_regs_instr i st) as [[o st0]|] eqn:Ei;
      [|discriminate].
    destruct (lower_locals_to_regs_instrs l st0) as [[o1 st2]|] eqn:El;
      [|discriminate].
    inversion E; subst. destruct (IH _ _ _ El) as (segs & C & F).
    exists (o :: segs). split; [simpl; now rewrite C|].
    constructor; [|exact F]. eapply lower_instr_rewritten; eauto.
Qed.

Lemma lower_locals_to_regs_block_rewrites_in_place_witness :
  let b := nth 0 (blocks sample_impl) sample_copy_block in
  let res := result_value (b, initial_state empty_impl)
               (lower_locals_to_regs_block (H := mesa_fnv32_1a) b
                  (initial_state empty_impl)) in
  length (instr_list (fst res)) = 5%nat /\
  exists segments,
    instr_list (fst res) = concat segments /\
    Forall2 rewritten_as (instr_list b) segments.
Proof.
  intros b res. split; [reflexivity|].
  apply (lower_locals_to_regs_block_rewrites_in_place (H := mesa_fnv32_1a)
           b (fst res) (initial_state empty_impl) (snd res)).
  vm_compute. reflexivity.
Defined.

(** ** The pass over a shader *)

Lemma impl_second_run `{fnv32_1a} (impl impl' : nir_function_impl)
    (p : bool) :
  nir_lower_locals_to_regs_impl impl = Ok (p, impl') ->
  impl_has_local_access impl' = false /\
  nir_lower_locals_to_regs_impl impl' = Ok (false, impl').
Proof.
  unfold nir_lower_locals_to_regs_impl at 1. simpl.
  destruct (lower_locals_to_regs_blocks (blocks impl)
              (mk_state [] false (registers impl) (reg_alloc impl) []))
    as [[bs' st']|] eqn:E; [|discriminate].
  intros Q; inversion Q; subst.
  destruct (lower_blocks_output _ _ _ _ E) as (_ & U).
  assert (R : nir_lower_locals_to_regs_impl
                (mk_impl bs' (impl_registers st') (impl_reg_alloc st')
                   (nir_metadata_preserve_block_index_dominance
                      (valid_metadata (nir_metadata_require_dominance impl))))
              = Ok (false,
                    mk_impl bs' (impl_registers st') (impl_reg_alloc st')
                      (nir_metadata_preserve_block_index_dominance
                         (valid_metadata
                            (nir_metadata_require_dominance impl))))).
  { unfold nir_lower_locals_to_regs_impl. simpl.
    rewrite (lower_blocks_untouched bs' _ U). reflexivity. }
  split; [|exact R].
  symmetry. exact (impl_progress _ _ _ R).
Qed.

Lemma functions_lowered `{fnv32_1a} (fs : list nir_function) :
  forall acc p fs',
    nir_lower_locals_to_regs_functions fs acc = Ok (p, fs') ->
    p = acc || existsb function_has_local_access fs /\
    map function_name fs' = map function_name fs /\
    Forall2 (fun f f' =>
               match function_impl f with
               | None => f' = f
               | Some impl =>
                   exists p1 impl',
                     nir_lower_locals_to_regs_impl impl = Ok (p1, impl') /\
                     function_impl f' = Some impl'
               end) fs fs'.
Proof.
  induction fs as [|f fs IH]; intros acc p fs' E; simpl in E.
  - inversion E; subst. simpl. rewrite orb_false_r. auto.
  - unfold function_has_local_access at 1. simpl.
    destruct (function_impl f) as [impl|] eqn:Fi.
    + destruct (nir_lower_locals_to_regs_impl impl) as [[p1 impl']|] eqn:Ei;
        [|discriminate].
      destruct (nir_lower_locals_to_regs_functions fs (p1 || acc))
        as [[p2 rest]|] eqn:Er; [|discriminate].
      inversion E; subst. destruct (IH _ _ _ Er) as (P & N & F).
      split; [|split].
      * rewrite P, (impl_progress _ _ _ Ei).
        destruct (impl_has_local_access impl), acc; reflexivity.
      * simpl. now rewrite N.
      * constructor; [|exact F]. rewrite Fi. eauto.
    + destruct (nir_lower_locals_to_regs_functions fs acc)
        as [[p2 rest]|] eqn:Er; [|discriminate].
      inversion E; subst. destruct (IH _ _ _ Er) as (P & N & F).
      split; [|split].
      * rewrite P. reflexivity.
      * simpl. now rewrite N.
      * constructor; [|exact F]. now rewrite Fi.
Qed.

Lemma functions_second_run `{fnv32_1a} (fs : list nir_function) :
  forall fs',
    Forall2 (fun f f' =>
               match function_impl f with
               | None => f' = f
               | Some impl =>
                   exists p1 impl',
                     nir_lower_locals_to_regs_impl impl = Ok (p1, impl') /\
                     function_impl f' = Some impl'
               end) fs fs' ->
    map function_name fs' = map function_name fs ->
    existsb function_has_local_access fs' = false /\
    nir_lower_locals_to_regs_functions fs' false = Ok (false, fs').
Proof.
  induction fs as [|f fs IH]; intros fs' F N.
  - inversion F; subst. auto.
  - inversion F as [|? f' ? rest Hf Hr]; subst. simpl in N.
    inversion N as [[N1 N2]]. destruct (IH rest Hr N2) as (A & B).
    simpl. unfold function_has_local_access at 1.
    destruct (function_impl f) as [impl|] eqn:Fi.
    + destruct Hf as (p1 & impl' & Ei & Fi').
      destruct (impl_second_run _ _ _ Ei) as (L & R).
      rewrite Fi', L, R. simpl. rewrite A, B. split; [reflexivity|].
      destruct f' as [nm im]. simpl in *. now subst.
    + subst f'. rewrite Fi. simpl. rewrite A, B. auto.
Qed.

(** X14. Over a shader the pass lowers every function that has a body,
    also after an earlier one made progress, and returns the disjunction
    of their results: true exactly when some body held a load or store of
    local storage.  The functions stay in number, name and order,
    declarations without body are untouched, no such load or store is
    left, and a second run returns false and the shader unchanged. *)
Theorem nir_lower_locals_to_regs_shader `{fnv32_1a}
    (shader shader' : list nir_function) (p : bool) :
  nir_lower_locals_to_regs shader = Ok (p, shader') ->
  p = existsb function_has_local_access shader /\
  map function_name shader' = map function_name shader /\
  Forall2 (fun f f' => function_impl f = None -> f' = f) shader shader' /\
  existsb function_has_local_access shader' = false /\
  nir_lower_locals_to_regs shader' = Ok (false, shader').
Proof.
  unfold nir_lower_locals_to_regs. intros E.
  destruct (functions_lowered shader false p shader' E) as (P & N & F).
  split; [exact P|]. split; [exact N|]. split.
  - eapply Forall2_impl; [|exact F]. intros f f' Hf Hn.
    cbv beta in Hf. now rewrite Hn in Hf.
  - exact (functions_second_run shader shader' F N).
Qed.

Lemma nir_lower_locals_to_regs_shader_witness :
  let res := result_value (false, [])
               (nir_lower_locals_to_regs (H := mesa_fnv32_1a) sample_shader) in
  fst res = true /\
  map function_name (snd res) = [0; 1; 2]%nat /\
  nir_lower_locals_to_regs (H := mesa_fnv32_1a) (snd res) =
  Ok (false, snd res).
Proof.
  intros res.
  destruct (nir_lower_locals_to_regs_shader (H := mesa_fnv32_1a)
              sample_shader (snd res) (fst res)) as (A & B & _ & _ & C).
  - vm_compute. reflexivity.
  - split; [exact A|]. split; [exact B|exact C].
Defined.

(** X15. A copy instruction in any block of any function body makes the
    pass over the whole shader fatal. *)
Theorem nir_lower_locals_to_regs_copy_fatal `{fnv32_1a}
    (shader : list nir_function) (f : nir_function)
    (impl : nir_function_impl) (block : nir_block)
    (dst src : nir_deref_instr) :
  In f shader -> function_impl f = Some impl -> In block (blocks impl) ->
  In (instr_intrinsic (copy_deref dst src)) (instr_list block) ->
  exists e, nir_lower_locals_to_regs shader = Fatal e.
Proof.
  intros Hf Fi Hb Hc.
  destruct (nir_lower_locals_to_regs shader) as [[p shader']|e] eqn:E;
    [|eauto].
  exfalso. unfold nir_lower_locals_to_regs in E.
  destruct (functions_lowered shader false p shader' E) as (_ & _ & F).
  clear E. induction F as [|x x' l l' Hx _ IH]; [contradiction|].
  destruct Hf as [->|Hf]; [|auto].
  rewrite Fi in Hx. destruct Hx as (p1 & impl' & Ei & _).
  unfold nir_lower_locals_to_regs_impl in Ei. simpl in Ei.
  destruct (lower_locals_to_regs_blocks (blocks impl)
              (mk_state [] false (registers impl) (reg_alloc impl) []))
    as [[bs' st']|] eqn:Eb; [|discriminate].
  exact (lower_blocks_no_copy _ _ _ _ block dst src Eb Hb Hc).
Qed.

Lemma nir_lower_locals_to_regs_copy_fatal_witness :
  exists e,
    nir_lower_locals_to_regs (H := mesa_fnv32_1a) sample_shader_copy =
    Fatal e.
Proof.
  apply (nir_lower_locals_to_regs_copy_fatal (H := mesa_fnv32_1a)
           sample_shader_copy (mk_function 1 (Some sample_impl_copy))
           sample_impl_copy sample_copy_block
           (sample_l_elem (src_ssa (ssa_load_const 0)))
           (sample_l_elem (src_ssa (ssa_load_const 1)))).
  - simpl. auto.
  - reflexivity.
  - simpl. auto.
  - simpl. auto.
Defined.

(** ** Attributes of the register of a typed chain *)

Lemma typed_same_links (a : nir_deref_instr) :
  forall b v,
    deref_types_ok a -> deref_types_ok b ->
    nir_deref_instr_get_variable a = Some v ->
    nir_deref_instr_get_variable b = Some v ->
    deref_links a = deref_links b ->
    deref_glsl_type a = deref_glsl_type b /\
    array_dimensions a = array_dimensions b.
Proof.
  induction a; intros b v Ta Tb Va Vb L; simpl in Ta; try contradiction;
    destruct b; simpl in Tb; try contradiction; simpl in L;
    try discriminate; simpl in Va, Vb |- *.
  - subst. split; [congruence|reflexivity].
  - destruct Ta as (Ta & Ea), Tb as (Tb & Eb). inversion L as [L'].
    destruct (IHa b v Ta Tb Va Vb L') as (T & D).
    rewrite T in Ea. split; [congruence|]. now rewrite T, D.
  - destruct Ta as (Ta & Ea), Tb as (Tb & Eb). inversion L as [[I L']].
    subst. destruct (IHa b v Ta Tb Va Vb L') as (T & D).
    rewrite T in Ea. split; [congruence|exact D].
Qed.

Lemma new_register_same `{fnv32_1a} (a b : nir_deref_instr) (i : nat) :
  deref_glsl_type a = deref_glsl_type b ->
  array_dimensions a = array_dimensions b ->
  new_register a i = new_register b i.
Proof.
  intros T D. unfold new_register.
  rewrite !array_size_loop_product by (unfold UINT32_MODULUS; lia).
  now rewrite T, D.
Qed.

Lemma get_reg_for_deref_typed `{fnv32_1a} (var_at : nat -> nir_variable)
    (d : nir_deref_instr) (st st' : locals_to_regs_state)
    (r : nir_register) :
  table_inv st -> table_typed var_at st ->
  deref_types_ok d -> chain_in_store var_at d ->
  get_reg_for_deref d st = Ok (r, st') ->
  r = new_register d (reg_index r) /\ table_typed var_at st'.
Proof.
  intros I T Td (v & Hv & Av) E.
  destruct (get_reg_for_deref_cases d st st' r E)
    as (h & var & Hh & Hv' & Hc & [(e & Hs & Hr & Hst)|(Hs & Hvec & Hr & Hst)]).
  - subst st'. split; [|exact T].
    destruct (search_found _ _ _ _ Hs) as (Hin & _ & Q).
    unfold table_typed in T. rewrite Forall_forall in T.
    destruct (T e Hin) as ((Te & Ve) & (ve & Hve & Ave) & De).
    pose proof (deref_types_ok_chain_ok d Td) as Cd.
    pose proof (deref_types_ok_chain_ok _ Te) as Ce.
    apply derefs_equal_true_iff in Q; auto.
    unfold deref_shape, deref_root_id in Q. rewrite Hv, Hve in Q.
    simpl in Q. inversion Q as [[Qi Ql]].
    assert (v = ve) by (rewrite <- Av, <- Ave; now rewrite Qi). subst ve.
    destruct (typed_same_links d (entry_key e) v Td Te Hv Hve Ql) as (X & Y).
    subst r. rewrite De at 1. symmetry. now apply new_register_same.
  - subst st' r. split; [reflexivity|].
    unfold table_typed, state_with_new_register. cbn [regs_table].
    apply Forall_app. split; [exact T|].
    constructor; [|constructor]. cbn [entry_key entry_data].
    split; [split; [exact Td|exact Hvec]|].
    split; [exists v; auto|reflexivity].
Qed.

(** X16. While the chains looked up are well formed, the register
    [get_deref_reg_src] resolves for a well-typed chain has the component
    count and bit size of the chain's own leaf type and the array size of
    the chain's own dimensions, whether the register was created for this
    chain or found; and when the product of the chain's dimensions fits
    32 bits, an access with every index inside its array addresses an
    element inside that register. *)
Theorem get_deref_reg_src_register_attributes `{fnv32_1a}
    (var_at : nat -> nir_variable) (d : nir_deref_instr)
    (st st' : locals_to_regs_state) (src : nir_reg_src) :
  table_inv st -> table_typed var_at st ->
  deref_types_ok d -> chain_in_store var_at d ->
  get_deref_reg_src d st = Ok (src, st') ->
  reg src = new_register d (reg_index (reg src)) /\
  table_inv st' /\ table_typed var_at st' /\
  forall env regs,
    indices_in_bounds (array_index_values env regs d) (array_dimensions d) ->
    fold_right Z.mul 1 (array_dimensions d) < UINT32_MODULUS ->
    0 <= reg_src_element env regs src < Z.max 1 (num_array_elems (reg src)).
Proof.
  intros I T Td Sd E.
  pose proof (get_deref_reg_src_element d st st' src E) as Q.
  unfold get_deref_reg_src in E. unfold bind at 1 in E.
  destruct (get_reg_for_deref d st) as [[r st1]|] eqn:G; [|discriminate].
  destruct (get_reg_for_deref_typed var_at d st st1 r I T Td Sd G)
    as (Hr & T1).
  destruct (get_reg_for_deref_entry d st st1 r I G) as (I1 & _).
  assert (F : offset_folded (mk_reg_src r 0 None)) by exact Logic.I.
  destruct (deref_reg_src_loop_folded d (mk_reg_src r 0 None) 1 st1 F)
    as ((s2 & st2 & E2 & _ & R2 & Tb & _ & A & _) & _).
  assert (X : reg src = r /\ regs_table st' = regs_table st1 /\
              impl_reg_alloc st' = impl_reg_alloc st1).
  { cbn [reg] in E. destruct (num_array_elems r =? 0).
    - inversion E; subst. auto.
    - rewrite E2 in E. inversion E; subst. auto. }
  destruct X as (Xr & Xt & Xa).
  split; [rewrite Xr; exact Hr|].
  split; [eapply table_inv_same_table; eauto|].
  split; [unfold table_typed; rewrite Xt; exact T1|].
  intros env regs B P. rewrite (Q env regs), Xr.
  pose proof (row_major_bounds _ _ B) as R.
  fold (linear_index env regs d) in R.
  destruct (Z.eqb_spec (num_array_elems r) 0) as [Z0|Z0]; [lia|].
  rewrite u32_small by lia.
  assert (S : num_array_elems r = fold_right Z.mul 1 (array_dimensions d)).
  { rewrite Hr in Z0 |- *. unfold new_register in *.
    cbn [num_array_elems] in *.
    rewrite array_size_loop_product in * by (unfold UINT32_MODULUS; lia).
    rewrite Z.mul_1_l in *. rewrite u32_small in * by lia.
    destruct (1 <? fold_right Z.mul 1 (array_dimensions d));
      [reflexivity|contradiction]. }
  lia.
Qed.

Lemma sample_state_t_invariants :
  table_inv (H := mesa_fnv32_1a) sample_state_t /\
  table_typed sample_var_at sample_state_t.
Proof.
  pose (d0 := sample_t_a_elem (src_ssa (ssa_load_const 0))
                              (src_ssa (ssa_load_const 1))).
  assert (G : get_reg_for_deref (H := mesa_fnv32_1a) d0
                (initial_state empty_impl) =
              Ok (new_register d0 0, sample_state_t))
    by (vm_compute; reflexivity).
  split.
  - exact (proj1 (get_reg_for_deref_entry (H := mesa_fnv32_1a) d0 _ _ _
                    (initial_state_table_inv empty_impl) G)).
  - refine (proj2 (get_reg_for_deref_typed (H := mesa_fnv32_1a)
                     sample_var_at d0 _ _ _
                     (initial_state_table_inv empty_impl) _ _ _ G)).
    + constructor.
    + simpl. repeat split; reflexivity.
    + exists sample_var_t. split; reflexivity.
Qed.

Lemma get_deref_reg_src_register_attributes_witness :
  let d := sample_t_a_elem (src_ssa (ssa_value 7)) (src_reg 5) in
  let env := fun _ : nat => 2 in
  let regs := fun _ : nat => 3 in
  let res := result_value (mk_reg_src (new_register d 0) 0 None,
                           initial_state empty_impl)
               (get_deref_reg_src (H := mesa_fnv32_1a) d sample_state_t) in
  length (regs_table sample_state_t) = 1%nat /\
  length (regs_table (snd res)) = 1%nat /\
  reg (fst res) = mk_register 0 1 12 32 /\
  0 <= reg_src_element env regs (fst res) < 12.
Proof.
  intros d env regs res.
  split; [reflexivity|]. split; [reflexivity|]. split; [reflexivity|].
  destruct (get_deref_reg_src_register_attributes (H := mesa_fnv32_1a)
              sample_var_at d sample_state_t (snd res) (fst res))
    as (_ & _ & _ & A).
  - exact (proj1 sample_state_t_invariants).
  - exact (proj2 sample_state_t_invariants).
  - simpl. repeat split; reflexivity.
  - exists sample_var_t. split; reflexivity.
  - vm_compute. reflexivity.
  - apply (A env regs).
    + repeat constructor; vm_compute; discriminate.
    + vm_compute. reflexivity.
Defined.



(** X18. On chains of array and struct links above a variable
    [derefs_equal] always answers, and answers true exactly when both
    chains have the same root variable and, link by link from the leaf,
    the same kind of link with the same field index at struct links. *)
Theorem derefs_equal_characterized (a b : nir_deref_instr) :
  deref_chain_ok a = true -> deref_chain_ok b = true ->
  (derefs_equal a b = Ok true \/ derefs_equal a b = Ok false) /\
  (derefs_equal a b = Ok true <->
   deref_root_id a = deref_root_id b /\ deref_links a = deref_links b).
Proof.
  intros Ca Cb. split.
  - destruct (derefs_equal_total a b Ca Cb) as ([|] & ->); auto.
  - rewrite (derefs_equal_true_iff a b Ca Cb). unfold deref_shape.
    split; [intros E; inversion E; auto|intros (-> & ->); reflexivity].
Qed.

Lemma derefs_equal_characterized_witness :
  derefs_equal (sample_s_x (src_ssa (ssa_value 7)))
               (sample_s_y (src_ssa (ssa_value 7))) = Ok false.
Proof.
  destruct (derefs_equal_characterized
              (sample_s_x (src_ssa (ssa_value 7)))
              (sample_s_y (src_ssa (ssa_value 7))) eq_refl eq_refl)
    as ([A|A] & B).
  - apply B in A. destruct A as (_ & A). discriminate.
  - exact A.
Defined.

(** ** Single-element arrays *)

Lemma sample_state_one_invariants :
  table_inv (H := mesa_fnv32_1a) sample_state_one /\
  table_typed sample_var_at sample_state_one.
Proof.
  pose (d0 := sample_one_elem (src_ssa (ssa_load_const 0))).
  assert (G : get_reg_for_deref (H := mesa_fnv32_1a) d0
                (initial_state empty_impl) =
              Ok (new_register d0 0, sample_state_one))
    by (vm_compute; reflexivity).
  split.
  - exact (proj1 (get_reg_for_deref_entry (H := mesa_fnv32_1a) d0 _ _ _
                    (initial_state_table_inv empty_impl) G)).
  - refine (proj2 (get_reg_for_deref_typed (H := mesa_fnv32_1a)
                     sample_var_at d0 _ _ _
                     (initial_state_table_inv empty_impl) _ _ _ G)).
    + constructor.
    + simpl. repeat split; reflexivity.
    + exists sample_var_one. split; reflexivity.
Qed.

(** C9. A chain whose array lengths multiply to 1, as when a one-element
    array is indexed, has a register with [num_array_elems] 0, since the
    code records 0 for every product not above 1.  Every access through
    such a chain, with a constant or a dynamic index, is the direct access
    at base offset 0 without indirect: the access that allocates the
    register, and, while the chains looked up are well formed, every
    access that finds the register in the table, whichever chain of the
    same identity it was allocated for. *)
Theorem get_deref_reg_src_single_element `{fnv32_1a}
    (var_at : nat -> nir_variable) (d : nir_deref_instr)
    (st st' : locals_to_regs_state) (src : nir_reg_src) :
  array_dimensions_product d <= 1 ->
  get_deref_reg_src d st = Ok (src, st') ->
  (exists h, hash_deref d = Ok h /\
             hash_table_search_pre_hashed (regs_table st) h d = Ok None) \/
  (table_inv st /\ table_typed var_at st /\
   deref_types_ok d /\ chain_in_store var_at d) ->
  num_array_elems (reg src) = 0 /\
  base_offset src = 0 /\
  indirect src = None /\
  (table_inv st -> table_typed var_at st ->
   deref_types_ok d -> chain_in_store var_at d ->
   table_inv st' /\ table_typed var_at st').
Proof.
  intros P E Hyp.
  assert (A : array_size_loop d 1 = array_dimensions_product d).
  { unfold array_dimensions_product.
    rewrite array_size_loop_product by (unfold UINT32_MODULUS; lia).
    f_equal. ring. }
  assert (N : forall i, num_array_elems (new_register d i) = 0).
  { intros i. unfold new_register. cbn [num_array_elems]. rewrite A.
    destruct (Z.ltb_spec 1 (array_dimensions_product d)); [lia|reflexivity]. }
  unfold get_deref_reg_src in E. unfold bind at 1 in E.
  destruct (get_reg_for_deref d st) as [[r st1]|] eqn:G; [|discriminate].
  assert (Z0 : num_array_elems r = 0).
  { destruct Hyp as [(h & Hh & Hs)|(I & T & Td & Sd)].
    - destruct (get_reg_for_deref_cases d st st1 r G)
        as (h' & var & Hh' & Hv & Hc & [(e & Hs' & _)|(_ & _ & Hr & _)]).
      + rewrite Hh in Hh'. inversion Hh'; subst. rewrite Hs in Hs'.
        discriminate.
      + rewrite Hr. apply N.
    - destruct (get_reg_for_deref_typed var_at d st st1 r I T Td Sd G)
        as (Hr & _).
      rewrite Hr. apply N. }
  cbn [reg] in E. rewrite Z0 in E. simpl in E. inversion E; subst src st'.
  cbn [reg base_offset indirect].
  split; [exact Z0|]. split; [reflexivity|]. split; [reflexivity|].
  intros I T Td Sd. split.
  - exact (proj1 (get_reg_for_deref_entry d st st1 r I G)).
  - exact (proj2 (get_reg_for_deref_typed var_at d st st1 r I T Td Sd G)).
Qed.

Lemma get_deref_reg_src_single_element_witness :
  let d := sample_one_elem (src_ssa (ssa_value 7)) in
  let h := result_value 0 (hash_deref (H := mesa_fnv32_1a) d) in
  let res := result_value (mk_reg_src (new_register d 7) 1 None,
                           initial_state empty_impl)
               (get_deref_reg_src (H := mesa_fnv32_1a) d sample_state_one) in
  array_dimensions d = [1] /\
  nir_src_as_const_value (src_ssa (ssa_value 7)) = None /\
  hash_table_search_pre_hashed (regs_table sample_state_one) h d <> Ok None /\
  snd res = sample_state_one /\
  num_array_elems (reg (fst res)) = 0 /\
  base_offset (fst res) = 0 /\
  indirect (fst res) = None.
Proof.
  intros d h res.
  split; [reflexivity|]. split; [reflexivity|].
  split; [vm_compute; discriminate|]. split; [reflexivity|].
  destruct (get_deref_reg_src_single_element (H := mesa_fnv32_1a)
              sample_var_at d sample_state_one (snd res) (fst res))
    as (A & B & C & _).
  - vm_compute. discriminate.
  - vm_compute. reflexivity.
  - right. split; [exact (proj1 sample_state_one_invariants)|].
    split; [exact (proj2 sample_state_one_invariants)|].
    split; [simpl; repeat split; reflexivity|].
    exists sample_var_one. split; reflexivity.
  - split; [exact A|]. split; [exact B|exact C].
Defined.
